(** * Test-time adaptation by batch nuclear-norm minimisation

    A shallow embedding of [cifar/utils/bnm_utils.py]: the [BNM] wrapper
    and its helpers ([configure_model], [check_model], [collect_params],
    [copy_model_and_optimizer], [load_model_and_optimizer],
    [forward_and_adapt], [forward_only], [batch_nuclear_norm],
    [setup_bnm], [setup_optimizer]); and of the epoch loop of
    [cifar/tent.py] with its stopping rule.

    The file is written against the PyTorch objects the source
    manipulates.  Tensors live in a heap and are referred to by
    location, because the model, the optimizer and the dictionaries
    returned by [state_dict()] all share the same tensor objects; a
    module is a tree whose nodes carry their flags, parameters, buffers
    and named children.  Numerical kernels (the network itself, its
    derivative, softmax, the singular value decomposition, the Adam
    update rule) are operations of the class [Torch]: the development
    is parametric in them.  Failures raised inside those kernels are
    not part of the model; the exceptions the source itself can
    produce are ([assert], the explicit [raise] in [reset], and the
    key and size checks of the two [load_state_dict] calls). *)

From Stdlib Require Import ZArith QArith.
From stdpp Require Import base list sets strings.

Set Warnings "-register-all".

Definition loc := nat.

(** ** Modules *)

(** [nn.BatchNorm2d] has a fixed set of attributes and no children; every
    other layer or container is a [Layer] with its own registered
    parameters, (persistent) buffers and named children.  Parameters
    and buffers registered as [None] are kept only where the source
    assigns [None] itself, i.e. on the batch-norm layers. *)
Inductive module : Type :=
| BatchNorm2d (is_training : bool) (weight bias : option loc)
    (tracking : bool) (mean var num_batches_tracked : option loc)
| Layer (is_training : bool) (own_params : list (string * loc))
    (own_buffers : list (string * loc)) (children : list (string * module)).

Definition training (m : module) : bool :=
  match m with
  | BatchNorm2d tr _ _ _ _ _ _ => tr
  | Layer tr _ _ _ => tr
  end.

Definition track_running_stats (m : module) : bool :=
  match m with
  | BatchNorm2d _ _ _ trs _ _ _ => trs
  | Layer _ _ _ _ => false
  end.

Definition running_mean (m : module) : option loc :=
  match m with
  | BatchNorm2d _ _ _ _ rm _ _ => rm
  | Layer _ _ _ _ => None
  end.

Definition running_var (m : module) : option loc :=
  match m with
  | BatchNorm2d _ _ _ _ _ rv _ => rv
  | Layer _ _ _ _ => None
  end.

Definition isinstance_BatchNorm2d (m : module) : bool :=
  match m with
  | BatchNorm2d _ _ _ _ _ _ _ => true
  | Layer _ _ _ _ => false
  end.

Definition named (name : string) (o : option loc) : list (string * loc) :=
  match o with
  | Some l => [(name, l)]
  | None => []
  end.

(** [m._parameters.items()] and [m._buffers.items()] without the [None]
    entries, which every traversal below skips. *)
Definition module_parameters (m : module) : list (string * loc) :=
  match m with
  | BatchNorm2d _ w b _ _ _ _ => named "weight" w ++ named "bias" b
  | Layer _ ps _ _ => ps
  end.

Definition module_buffers (m : module) : list (string * loc) :=
  match m with
  | BatchNorm2d _ _ _ _ rm rv nbt =>
      named "running_mean" rm ++ named "running_var" rv
        ++ named "num_batches_tracked" nbt
  | Layer _ _ bs _ => bs
  end.

(** [prefix + ('.' if prefix else '') + name] *)
Definition join (prefix name : string) : string :=
  if decide (prefix = "") then name else prefix +:+ "." +:+ name.

(** [Module.named_modules()]: the module itself, then its descendants,
    depth first. *)
Fixpoint named_modules (prefix : string) (m : module) : list (string * module) :=
  (prefix, m) ::
  match m with
  | BatchNorm2d _ _ _ _ _ _ _ => []
  | Layer _ _ _ cs => flat_map (λ nc, named_modules (join prefix nc.1) nc.2) cs
  end.

Definition modules (m : module) : list module := (named_modules "" m).*2.

(** Members already seen (the same tensor object) are skipped, as
    [Module._named_members] does with its memo set. *)
Fixpoint remove_duplicate (seen : list loc) (l : list (string * loc))
  : list (string * loc) :=
  match l with
  | [] => []
  | (k, p) :: r =>
      if decide (p ∈ seen) then remove_duplicate seen r
      else (k, p) :: remove_duplicate (p :: seen) r
  end.

Definition named_parameters (m : module) : list (string * loc) :=
  remove_duplicate []
    (flat_map (λ pm, prod_map (join pm.1) id <$> module_parameters pm.2)
       (named_modules "" m)).

Definition parameters (m : module) : list loc := (named_parameters m).*2.

Definition named_buffers (m : module) : list (string * loc) :=
  remove_duplicate []
    (flat_map (λ pm, prod_map (join pm.1) id <$> module_buffers pm.2)
       (named_modules "" m)).

Definition buffers (m : module) : list loc := (named_buffers m).*2.

(** [Module.state_dict()]: own parameters, own buffers, then the
    children with [prefix + name + '.'].  The entries refer to the live
    tensors. *)
Fixpoint state_dict (prefix : string) (m : module) : list (string * loc) :=
  (prod_map (String.append prefix) id <$> (module_parameters m ++ module_buffers m)) ++
  match m with
  | BatchNorm2d _ _ _ _ _ _ _ => []
  | Layer _ _ _ cs => flat_map (λ nc, state_dict (prefix +:+ nc.1 +:+ ".") nc.2) cs
  end.

(** [Module.train(mode)] and [Module.eval()] *)
Fixpoint train (mode : bool) (m : module) : module :=
  match m with
  | BatchNorm2d _ w b trs rm rv nbt => BatchNorm2d mode w b trs rm rv nbt
  | Layer _ ps bs cs => Layer mode ps bs ((λ nc, (nc.1, train mode nc.2)) <$> cs)
  end.

Definition eval (m : module) : module := train false m.

Definition with_children (m : module) (cs : list (string * module)) : module :=
  match m with
  | BatchNorm2d _ _ _ _ _ _ _ => m
  | Layer tr ps bs _ => Layer tr ps bs cs
  end.

(** ** Attribute updates on a module tree

    [train], [eval] and the loop of [configure_model] assign attributes
    node by node and leave the tree, its parameters and their names as
    they are; [map_nodes] is the shape they share. *)

Fixpoint map_nodes (g : module → module) (m : module) : module :=
  match m with
  | BatchNorm2d _ _ _ _ _ _ _ => g m
  | Layer _ _ _ cs => with_children (g m) ((λ nc, (nc.1, map_nodes g nc.2)) <$> cs)
  end.

Definition set_training (mode : bool) (m : module) : module :=
  match m with
  | BatchNorm2d _ w b trs rm rv nbt => BatchNorm2d mode w b trs rm rv nbt
  | Layer _ ps bs cs => Layer mode ps bs cs
  end.

Definition use_batch_stats (m : module) : module :=
  match m with
  | BatchNorm2d tr w b _ _ _ nbt => BatchNorm2d tr w b false None None nbt
  | Layer _ _ _ _ => m
  end.

Definition attribute_update (g : module → module) : Prop :=
  ∀ m, module_parameters (g m) = module_parameters m ∧
       match m, g m with
       | BatchNorm2d _ _ _ _ _ _ _, BatchNorm2d _ _ _ _ _ _ _ => True
       | Layer _ _ _ cs, Layer _ _ _ cs' => cs' = cs
       | _, _ => False
       end.

(** [train] and [eval] moreover leave the buffers alone. *)
Definition flag_update (g : module → module) : Prop :=
  attribute_update g ∧ ∀ m, module_buffers (g m) = module_buffers m.

(** The parameters of the batch-norm layers, in the order in which the
    loop of [configure_model] visits them. *)
Definition norm_parameters (m : module) : list loc :=
  flat_map (λ md, if isinstance_BatchNorm2d md then parameters md else [])
    (modules m).

(** ** Numerical kernels *)

Class Torch := {
  scalar : Type;
  storage : Type;
  batch : Type;
  storage_inhabited : Inhabited storage;
  float_lit : Q → scalar;
  (* kernels used by the loss *)
  softmax_1d : list scalar → list scalar;
  torch_svd :
    list (list scalar) → list (list scalar) * list scalar * list (list scalar);
  pow_int : scalar → Z → scalar;
  torch_mean : list scalar → scalar;
  torch_sqrt : scalar → scalar;
  torch_neg : scalar → scalar;
  batch_nuclear_norm_vjp : list (list scalar) → scalar → list (list scalar);
  (* the network: its output and the new contents of its buffers, from
     the module tree (flags included), the contents of the tensors of
     its state_dict and the batch; and its vector-Jacobian product, per
     parameter *)
  net_forward : module → list storage → batch → list (list scalar);
  net_buffers : module → list storage → batch → list storage;
  net_vjp :
    module → list storage → batch → list (list scalar) → loc → option storage;
  (* kernels used by autograd and by Adam *)
  tensor_add : storage → storage → storage;
  zeros_like : storage → storage;
  adam_kernel :
    scalar → scalar * scalar → scalar → scalar → Z →
    storage → storage → storage → storage → storage * storage * storage;
}.

#[global] Existing Instance storage_inhabited.

Section torch.
Context `{Torch}.

Definition matrix : Type := list (list scalar).

(** ** Tensors and the heap *)

Record tensor := Tensor {
  data : storage;
  requires_grad : bool;
  grad : option storage;
}.

#[global] Instance tensor_inhabited : Inhabited tensor :=
  populate (Tensor inhabitant false None).

Abbreviation heap := (list tensor).

Definition set_data (d : storage) (t : tensor) : tensor :=
  Tensor d (requires_grad t) (grad t).
Definition set_requires_grad (b : bool) (t : tensor) : tensor :=
  Tensor (data t) b (grad t).
Definition set_grad (g : option storage) (t : tensor) : tensor :=
  Tensor (data t) (requires_grad t) g.

(** ** Exceptions and the state monad *)

Inductive exn :=
| AssertionError (msg : string)
| Exception (msg : string)
| RuntimeError (msg : string)
| ValueError (msg : string).

Inductive result (A : Type) :=
| Ok (a : A)
| Raise (e : exn).
#[global] Arguments Ok {A} a.
#[global] Arguments Raise {A} e.

Definition M (A : Type) : Type := heap → result (A * heap).

Definition ret {A} (a : A) : M A := λ h, Ok (a, h).
Definition bind {A B} (c : M A) (k : A → M B) : M B :=
  λ h, match c h with
       | Ok (a, h') => k a h'
       | Raise e => Raise e
       end.
Definition raise {A} (e : exn) : M A := λ _, Raise e.
Definition get_heap : M heap := λ h, Ok (h, h).
Definition modify (f : heap → heap) : M unit := λ h, Ok (tt, f h).
Definition alloc (t : tensor) : M loc := λ h, Ok (length h, h ++ [t]).

Notation "'do' x <- c ; k" := (bind c (λ x, k))
  (at level 10, x name, c at level 100, k at level 200).
Notation "'do' ' p <- c ; k" := (bind c (λ x, match x with p => k end))
  (at level 10, p pattern, c at level 100, k at level 200).
Notation "c ;; k" := (bind c (λ _, k))
  (at level 100, k at level 200, right associativity).

Definition assert (c : bool) (msg : string) : M unit :=
  if c then ret tt else raise (AssertionError msg).

Fixpoint mapM {A B} (f : A → M B) (l : list A) : M (list B) :=
  match l with
  | [] => ret []
  | a :: r => do b <- f a; do bs <- mapM f r; ret (b :: bs)
  end.

Fixpoint forM_ {A} (l : list A) (f : A → M unit) : M unit :=
  match l with
  | [] => ret tt
  | a :: r => f a;; forM_ r f
  end.

(** [Module.requires_grad_(b)]: [for p in self.parameters(): p.requires_grad_(b)] *)
Definition requires_grad_ (b : bool) (m : module) : M unit :=
  forM_ (parameters m) (λ p, modify (alter (set_requires_grad b) p)).

Definition set_all (b : bool) (ps : list loc) (h : heap) : heap :=
  foldl (λ h p, alter (set_requires_grad b) p h) h ps.

(** [for m in model.modules(): body(m)], where the body mutates the
    attributes of [m] in place. *)
Fixpoint for_modules (body : module → M module) (m : module) : M module :=
  match m with
  | BatchNorm2d _ _ _ _ _ _ _ => body m
  | Layer _ _ _ cs =>
      do m' <- body m;
      do cs' <- mapM (λ nc, do c' <- for_modules body nc.2; ret (nc.1, c')) cs;
      ret (with_children m' cs')
  end.

(** ** [configure_model] *)

Definition configure_norm (m : module) : M module :=
  match m with
  | BatchNorm2d tr w b _ _ _ nbt =>
      requires_grad_ true m;;
      (* m.track_running_stats = False; m.running_mean = None;
         m.running_var = None *)
      ret (BatchNorm2d tr w b false None None nbt)
  | Layer _ _ _ _ => ret m
  end.

Definition configure_model (model : module) : M module :=
  let model := train true model in
  requires_grad_ false model;;
  do model <- for_modules configure_norm model;
  ret model.

(** ** [check_model] *)

Definition requires_grad_at (h : heap) (p : loc) : bool :=
  requires_grad (h !!! p).

Definition any (l : list bool) : bool := existsb id l.
Definition all (l : list bool) : bool := forallb id l.

Definition check_model (model : module) : M unit :=
  let is_training := training model in
  assert is_training "BNM needs train mode: call model.train()";;
  do h <- get_heap;
  let param_grads := requires_grad_at h <$> parameters model in
  let has_any_params := any param_grads in
  let has_all_params := all param_grads in
  assert has_any_params "BNM needs params to update: check which require grad";;
  assert (negb has_all_params)
    "BNM should not update all params: check which require grad";;
  let has_bn := any (isinstance_BatchNorm2d <$> modules model) in
  assert has_bn "BNM needs normalization for its optimization".

(** ** Calling the model; autograd *)

(** The tensor returned by [model(x)]: its value and, when it is part
    of an autograd graph, the function that sends a cotangent to the
    gradients of the leaves (the parameters that require gradients). *)
Record outputs := Outputs {
  out_value : matrix;
  out_grad_fn : option (matrix → list (loc * storage));
}.

Record loss := Loss {
  loss_value : scalar;
  loss_grad_fn : option (scalar → list (loc * storage));
}.

Definition data_at (h : heap) (l : loc) : storage := data (h !!! l).
Definition grad_at (h : heap) (l : loc) : option storage := grad (h !!! l).

Definition state_values (m : module) (h : heap) : list storage :=
  data_at h <$> (state_dict "" m).*2.

(** [model(x)] under [torch.enable_grad()] ([grad_enabled = true]) or
    [torch.no_grad()] ([grad_enabled = false]). *)
Definition call (grad_enabled : bool) (model : module) (x : batch) : M outputs :=
  do h <- get_heap;
  let vals := state_values model h in
  let leaves := List.filter (requires_grad_at h) (parameters model) in
  forM_ (zip (buffers model) (net_buffers model vals x))
    (λ bd, modify (alter (set_data bd.2) bd.1));;
  ret (Outputs (net_forward model vals x)
         (if grad_enabled && negb (bool_decide (leaves = [])) then
            Some (λ g, omap (λ p, pair p <$> net_vjp model vals x g p) leaves)
          else None)).

(** [Tensor.backward()] on the scalar loss: gradients are accumulated
    into the [.grad] of the leaves. *)
Definition accumulate (g : storage) (t : tensor) : tensor :=
  set_grad (Some (match grad t with
                  | None => g
                  | Some g0 => tensor_add g0 g
                  end)) t.

Definition backward (l : loss) : M unit :=
  match loss_grad_fn l with
  | Some grad_fn =>
      forM_ (grad_fn (float_lit 1)) (λ pg, modify (alter (accumulate pg.2) pg.1))
  | None => ret tt
  end.

(** ** [batch_nuclear_norm] *)

Definition column (j : nat) (x : matrix) : list scalar := omap (λ r, r !! j) x.
Definition transpose (x : matrix) : matrix :=
  (λ j, column j x) <$> seq 0 (length (default [] (head x))).

(** [F.softmax(x, dim)] on a two-dimensional tensor: the softmax runs
    along dimension [dim], so [dim = 1] normalises every row and
    [dim = 0] every column. *)
Definition F_softmax (x : matrix) (dim : Z) : matrix :=
  if decide (dim = 1 ∨ dim = -1)%Z then softmax_1d <$> x
  else transpose (softmax_1d <$> transpose x).

(** The value computed by the scripted function. *)
Definition batch_nuclear_norm (x : matrix) : scalar :=
  let target_softmax := F_softmax x 1 in
  torch_neg
    (torch_sqrt (torch_mean ((λ s, pow_int s 2) <$> (torch_svd target_softmax).1.2))).

(** The same function as a node of the autograd graph. *)
Definition batch_nuclear_norm_node (x : outputs) : loss :=
  Loss (batch_nuclear_norm (out_value x))
    ((λ grad_fn g, grad_fn (batch_nuclear_norm_vjp (out_value x) g))
       <$> out_grad_fn x).

(** ** The optimizer *)

Record adam_state := AdamState {
  step : Z;
  exp_avg : loc;
  exp_avg_sq : loc;
}.

Record param_group := ParamGroup {
  lr : scalar;
  betas : scalar * scalar;
  eps : scalar;
  weight_decay : scalar;
}.

(** [torch.optim.Adam] over one parameter group: the parameters, the
    options of the group, and [optimizer.state], keyed by parameter. *)
Record optim := Adam {
  params : list loc;
  group : param_group;
  state : list (loc * adam_state);
}.

Fixpoint assoc {K V} `{EqDecision K} (k : K) (l : list (K * V)) : option V :=
  match l with
  | [] => None
  | (k', v) :: r => if decide (k = k') then Some v else assoc k r
  end.

Fixpoint assoc_set {K V} `{EqDecision K} (k : K) (v : V) (l : list (K * V))
  : list (K * V) :=
  match l with
  | [] => [(k, v)]
  | (k', v') :: r => if decide (k = k') then (k, v) :: r else (k', v') :: assoc_set k v r
  end.

Definition fresh_tensor (d : storage) : tensor := Tensor d false None.

(** One parameter of [Adam.step()]: parameters without gradient are
    skipped; the state of a parameter is created at its first update. *)
Definition adam_update (g : param_group) (st : list (loc * adam_state)) (p : loc)
  : M (list (loc * adam_state)) :=
  do h <- get_heap;
  match grad_at h p with
  | None => ret st
  | Some gr =>
      do s <- match assoc p st with
              | Some s => ret s
              | None =>
                  do m <- alloc (fresh_tensor (zeros_like (data_at h p)));
                  do v <- alloc (fresh_tensor (zeros_like (data_at h p)));
                  ret (AdamState 0 m v)
              end;
      do h <- get_heap;
      let t := (step s + 1)%Z in
      let '(p', m', v') :=
        adam_kernel (lr g) (betas g) (eps g) (weight_decay g) t
          (data_at h p) gr (data_at h (exp_avg s)) (data_at h (exp_avg_sq s)) in
      modify (alter (set_data m') (exp_avg s));;
      modify (alter (set_data v') (exp_avg_sq s));;
      modify (alter (set_data p') p);;
      ret (assoc_set p (AdamState t (exp_avg s) (exp_avg_sq s)) st)
  end.

Fixpoint foldM {A B} (f : B → A → M B) (b : B) (l : list A) : M B :=
  match l with
  | [] => ret b
  | a :: r => do b' <- f b a; foldM f b' r
  end.

Definition optimizer_step (o : optim) : M optim :=
  do st <- foldM (adam_update (group o)) (state o) (params o);
  ret (Adam (params o) (group o) st).

(** [optimizer.zero_grad()]: the gradients of the optimized tensors are
    reset to [None]. *)
Definition zero_grad (o : optim) : M unit :=
  forM_ (params o) (λ p, modify (alter (set_grad None) p)).

(** ** [forward_and_adapt] and [forward_only] *)

Definition forward_and_adapt (x : batch) (model : module) (optimizer : optim)
  : M (outputs * module * optim) :=
  let model := train true model in
  (* forward *)
  do outputs <- call true model x;
  (* adapt *)
  let loss := batch_nuclear_norm_node outputs in
  backward loss;;
  do optimizer <- optimizer_step optimizer;
  zero_grad optimizer;;
  ret (outputs, model, optimizer).

Definition forward_only (x : batch) (model : module) : M (outputs * module) :=
  let model := eval model in
  do outputs <- call false model x;
  ret (outputs, model).

(** ** [collect_params] *)

Definition collect_params (model : module) (bn_only : bool)
  : list loc * list string :=
  if bn_only then
    let found :=
      flat_map (λ nm_m,
        if isinstance_BatchNorm2d nm_m.2 then
          flat_map (λ np_p,
            if decide (np_p.1 ∈ ["weight"; "bias"]) then
              [(np_p.2, nm_m.1 +:+ "." +:+ np_p.1)]
            else []) (named_parameters nm_m.2)
        else []) (named_modules "" model) in
    (found.*1, found.*2)
  else
    let found := named_parameters model in
    (found.*2, found.*1).

(** ** Snapshots: [copy_model_and_optimizer], [load_model_and_optimizer] *)

Definition deepcopy_tensor (l : loc) : M loc :=
  do h <- get_heap;
  alloc (fresh_tensor (data_at h l)).

Definition deepcopy_adam_state (s : adam_state) : M adam_state :=
  do m <- deepcopy_tensor (exp_avg s);
  do v <- deepcopy_tensor (exp_avg_sq s);
  ret (AdamState (step s) m v).

Definition deepcopy_entries {K} (sd : list (K * loc)) : M (list (K * loc)) :=
  mapM (λ kl, do l <- deepcopy_tensor kl.2; ret (kl.1, l)) sd.

Definition deepcopy_states {K} (sd : list (K * adam_state))
  : M (list (K * adam_state)) :=
  mapM (λ ks, do s <- deepcopy_adam_state ks.2; ret (ks.1, s)) sd.

(** The dictionary returned by [Optimizer.state_dict()]: the state is
    keyed by the position of the parameter in the group, and the group
    lists these positions. *)
Record optimizer_state_dict := OptimizerStateDict {
  sd_state : list (nat * adam_state);
  sd_group : param_group;
  sd_params : list nat;
}.

Fixpoint index_of (p : loc) (l : list loc) : option nat :=
  match l with
  | [] => None
  | q :: r => if decide (p = q) then Some 0 else S <$> index_of p r
  end.

Definition optimizer_state_dict_of (o : optim) : optimizer_state_dict :=
  OptimizerStateDict
    (omap (λ ps, (λ i, (i, ps.2)) <$> index_of ps.1 (params o)) (state o))
    (group o)
    (omap (λ p, index_of p (params o)) (params o)).

Definition deepcopy_optimizer_state_dict (sd : optimizer_state_dict)
  : M optimizer_state_dict :=
  do st <- deepcopy_states (sd_state sd);
  ret (OptimizerStateDict st (sd_group sd) (sd_params sd)).

Definition copy_model_and_optimizer (model : module) (optimizer : optim)
  : M (list (string * loc) * optimizer_state_dict) :=
  do model_state <- deepcopy_entries (state_dict "" model);
  do optimizer_state <-
    deepcopy_optimizer_state_dict (optimizer_state_dict_of optimizer);
  ret (model_state, optimizer_state).

(** [model.load_state_dict(sd, strict=True)]: every live entry is
    overwritten in place ([param.copy_(input_param)]) with the tensor
    saved under its key; missing and unexpected keys are an error. *)
Definition load_state_dict (m : module) (sd : list (string * loc)) : M unit :=
  let live := state_dict "" m in
  forM_ live (λ kl,
    match assoc kl.1 sd with
    | Some src => do h <- get_heap; modify (alter (set_data (data_at h src)) kl.2)
    | None => ret tt
    end);;
  let missing_keys := List.filter (λ k, bool_decide (assoc k sd = None)) live.*1 in
  let unexpected_keys := List.filter (λ k, bool_decide (k ∉ live.*1)) sd.*1 in
  if decide (missing_keys = [] ∧ unexpected_keys = []) then ret tt
  else raise (RuntimeError "Error(s) in loading state_dict").

(** [optimizer.load_state_dict(sd)]: the argument is deep-copied, its
    state is re-keyed by the parameters of the optimizer, position by
    position, and the options of the group are replaced by the saved
    ones. *)
Definition optimizer_load_state_dict (o : optim) (sd : optimizer_state_dict)
  : M optim :=
  do sd <- deepcopy_optimizer_state_dict sd;
  if decide (length (params o) = length (sd_params sd)) then
    let id_map := zip (sd_params sd) (params o) in
    ret (Adam (params o) (sd_group sd)
           (omap (λ ks, (λ p, (p, ks.2)) <$> assoc ks.1 id_map) (sd_state sd)))
  else
    raise (ValueError "loaded state dict contains a parameter group that doesn't match the size of optimizer's group").

Definition load_model_and_optimizer (model : module) (optimizer : optim)
    (model_state : list (string * loc)) (optimizer_state : optimizer_state_dict)
  : M optim :=
  load_state_dict model model_state;;
  optimizer_load_state_dict optimizer optimizer_state.

(** ** The wrapper *)

Record BNM := Bnm {
  model : module;
  optimizer_ : optim;
  steps : Z;
  episodic : bool;
  model_state : option (list (string * loc));
  optimizer_state : option optimizer_state_dict;
}.

Definition BNM_init (model : module) (optimizer : optim) (steps : Z)
    (episodic : bool) : M BNM :=
  assert (bool_decide (steps > 0)%Z)
    "BNM requires >= 1 step(s) to forward and update";;
  do st <- copy_model_and_optimizer model optimizer;
  ret (Bnm model optimizer steps episodic (Some st.1) (Some st.2)).

Definition BNM_reset (self : BNM) : M BNM :=
  match model_state self, optimizer_state self with
  | Some ms, Some os =>
      do o <- load_model_and_optimizer (model self) (optimizer_ self) ms os;
      ret (Bnm (model self) o (steps self) (episodic self)
             (model_state self) (optimizer_state self))
  | _, _ => raise (Exception "cannot reset without saved model/optimizer state")
  end.

(** [for _ in range(n): self = body(self)] *)
Fixpoint for_range {A} (n : nat) (body : A → M A) (a : A) : M A :=
  match n with
  | O => ret a
  | S n => do a' <- body a; for_range n body a'
  end.

Definition adapt_step (x : batch) (self : BNM) : M BNM :=
  do r <- forward_and_adapt x (model self) (optimizer_ self);
  ret (Bnm r.1.2 r.2 (steps self) (episodic self)
         (model_state self) (optimizer_state self)).

Definition BNM_forward (self : BNM) (x : batch) : M (outputs * BNM) :=
  do self <- (if episodic self then BNM_reset self else ret self);
  do self <- for_range (Z.to_nat (steps self)) (adapt_step x) self;
  do r <- forward_only x (model self);
  ret (r.1, Bnm r.2 (optimizer_ self) (steps self) (episodic self)
              (model_state self) (optimizer_state self)).

(** ** [setup_optimizer] and [setup_bnm] *)

Record Namespace := Args { args_lr : scalar }.

Definition setup_optimizer (params : list loc) (args : Namespace) : M optim :=
  if decide (params = []) then
    raise (ValueError "optimizer got an empty parameter list")
  else
    ret (Adam params
           (ParamGroup (args_lr args) (float_lit 0.9, float_lit 0.999)
              (float_lit 1e-8) (float_lit 0))
           []).

Definition setup_bnm (model : module) (args : Namespace) : M BNM :=
  do model <- configure_model model;
  let '(params, param_names) := collect_params model false in
  do optimizer <- setup_optimizer params args;
  do bnm_model <- BNM_init model optimizer 1 false;
  ret bnm_model.

(** ** Vocabulary of the statements *)

(** The three conditions on the parameters and layers that
    [check_model] rejects. *)
Definition no_parameter_trainable (model : module) (h : heap) : Prop :=
  ∀ p, p ∈ parameters model → requires_grad_at h p = false.
Definition all_parameters_trainable (model : module) (h : heap) : Prop :=
  ∀ p, p ∈ parameters model → requires_grad_at h p = true.
Definition no_norm_layer (model : module) : Prop :=
  ∀ m, m ∈ modules model → isinstance_BatchNorm2d m = false.

(** The tensors an optimizer state refers to. *)
Definition state_locs (st : list (loc * adam_state)) : list loc :=
  flat_map (λ e, [exp_avg e.2; exp_avg_sq e.2]) st.

(** [h'] extends [h] and agrees with it on every cell of [h] outside
    the footprint [W]. *)
Definition unchanged_outside (W : loc → Prop) (h h' : heap) : Prop :=
  length h ≤ length h' ∧ ∀ l, l < length h → ¬ W l → h' !! l = h !! l.

(** In-place writes of tensor contents, one after the other. *)
Definition write_all (ws : list (loc * storage)) (h : heap) : heap :=
  foldl (λ h w, alter (set_data w.2) w.1 h) h ws.

Definition accumulate_all (gs : list (loc * storage)) (h : heap) : heap :=
  foldl (λ h pg, alter (accumulate pg.2) pg.1 h) h gs.

Definition clear_grads (ps : list loc) (h : heap) : heap :=
  foldl (λ h p, alter (set_grad None) p h) h ps.

(** The leaves of the autograd graph of [model(x)] and their gradients
    for the cotangent [g] of the output. *)
Definition leaves (model : module) (h : heap) : list loc :=
  List.filter (requires_grad_at h) (parameters model).

Definition leaf_grads (model : module) (h : heap) (x : batch) (g : matrix)
  : list (loc * storage) :=
  omap (λ p, pair p <$> net_vjp model (state_values model h) x g p)
    (leaves model h).

(** The state and heap after one parameter of [Adam.step()]. *)
Definition adam_update_result (g : param_group) (st : list (loc * adam_state))
    (p : loc) (h : heap) : list (loc * adam_state) * heap :=
  match grad_at h p with
  | None => (st, h)
  | Some gr =>
      let z := fresh_tensor (zeros_like (data_at h p)) in
      let s := default (AdamState 0 (length h) (S (length h))) (assoc p st) in
      let h1 := match assoc p st with Some _ => h | None => h ++ [z; z] end in
      let t := (step s + 1)%Z in
      let r := adam_kernel (lr g) (betas g) (eps g) (weight_decay g) t
                 (data_at h1 p) gr (data_at h1 (exp_avg s))
                 (data_at h1 (exp_avg_sq s)) in
      (assoc_set p (AdamState t (exp_avg s) (exp_avg_sq s)) st,
       alter (set_data r.1.1) p
         (alter (set_data r.2) (exp_avg_sq s)
            (alter (set_data r.1.2) (exp_avg s) h1)))
  end.

Definition adam_fold (g : param_group) (ps : list loc)
    (sh : list (loc * adam_state) * heap) : list (loc * adam_state) * heap :=
  foldl (λ sh p, adam_update_result g sh.1 p sh.2) sh ps.

(** The result of [forward_and_adapt], which never raises. *)
Definition adapted (x : batch) (model : module) (o : optim) (h : heap)
  : outputs * module * optim * heap :=
  let model := train true model in
  let out :=
    Outputs (net_forward model (state_values model h) x)
      (if negb (bool_decide (leaves model h = [])) then
         Some (leaf_grads model h x)
       else None) in
  let h1 :=
    write_all (zip (buffers model) (net_buffers model (state_values model h) x)) h in
  let seed := batch_nuclear_norm_vjp (out_value out) (float_lit 1) in
  let h2 := accumulate_all (leaf_grads model h x seed) h1 in
  let sh := adam_fold (group o) (params o) (state o, h2) in
  (out, model, Adam (params o) (group o) sh.1, clear_grads (params o) sh.2).

(** The cells [forward_and_adapt] may write among those that exist
    when it is called. *)
Definition adapt_footprint (model : module) (o : optim) (l : loc) : Prop :=
  l ∈ buffers model ∨ l ∈ parameters model ∨ l ∈ params o ∨
  l ∈ state_locs (state o).

(** Every cell of [h] is still there in [h'], related by [R] to what it
    was. *)
Definition cells_related (R : relation tensor) (h h' : heap) : Prop :=
  ∀ l t, h !! l = Some t → ∃ t', h' !! l = Some t' ∧ R t t'.

Definition same_requires_grad (t t' : tensor) : Prop :=
  requires_grad t' = requires_grad t.
Definition same_autograd (t t' : tensor) : Prop :=
  requires_grad t' = requires_grad t ∧ grad t' = grad t.
Definition same_contents (t t' : tensor) : Prop :=
  data t' = data t ∧ grad t' = grad t.

(** The entries [deepcopy] produces for an optimizer state when the
    next free location is [n]: the same keys and step counts, two
    consecutive new tensors per entry. *)
Fixpoint copied_states {K} (n : nat) (sd : list (K * adam_state))
  : list (K * adam_state) :=
  match sd with
  | [] => []
  | ks :: r => (ks.1, AdamState (step ks.2) n (S n)) :: copied_states (S (S n)) r
  end.

Definition copied_cells {K} (h : heap) (sd : list (K * adam_state)) : heap :=
  flat_map (λ ks, [fresh_tensor (data_at h (exp_avg ks.2));
                   fresh_tensor (data_at h (exp_avg_sq ks.2))]) sd.

(** The calls a client can make on a wrapper. *)
Inductive method_call :=
| Forward (x : batch)
| Reset.

Definition call_method (self : BNM) (c : method_call) : M BNM :=
  match c with
  | Forward x => do r <- BNM_forward self x; ret r.2
  | Reset => BNM_reset self
  end.

Definition run_calls (self : BNM) (calls : list method_call) : M BNM :=
  foldM call_method self calls.

(** What an optimizer holds, by value: its parameters, the options of
    its group and, per parameter, the step count and the contents of
    the two moment tensors. *)
Definition optimizer_values (o : optim) (h : heap)
  : list loc * param_group * list (option (Z * storage * storage)) :=
  (params o, group o,
   (λ p, (λ s, (step s, data_at h (exp_avg s), data_at h (exp_avg_sq s)))
           <$> assoc p (state o)) <$> params o).

(** Every tensor the model and the optimizer refer to exists, and the
    keys of the state dictionary of the model are pairwise distinct
    (as PyTorch guarantees for registered names). *)
Definition well_formed (model : module) (o : optim) (h : heap) : Prop :=
  Forall (λ l, l < length h) (state_dict "" model).*2 ∧
  Forall (λ l, l < length h) (params o) ∧
  Forall (λ l, l < length h) (state_locs (state o)) ∧
  NoDup (state_dict "" model).*1.

(** One entry of the loop of [Module.load_state_dict], and the heap
    once every entry of the model has been visited. *)
Definition load_entry (sd : list (string * loc)) (kl : string * loc) (h : heap)
  : heap :=
  match assoc kl.1 sd with
  | Some src => alter (set_data (data_at h src)) kl.2 h
  | None => h
  end.

Definition loaded (model : module) (sd : list (string * loc)) (h : heap) : heap :=
  foldl (λ h kl, load_entry sd kl h) h (state_dict "" model).


(** The cells of a snapshot, which lie between [n0] and the end of
    the heap [h1] left by the capture, are still in [h] what they were
    in [h1]. *)
Definition snapshot_intact (n0 : nat) (h1 h : heap) : Prop :=
  length h1 ≤ length h ∧ ∀ l : nat, n0 ≤ l < length h1 → h !! l = h1 !! l.

(** The tensors of the optimizer state exist and are not cells of the
    snapshot. *)
Definition state_apart (n0 : nat) (h1 h : heap) (o : optim) : Prop :=
  Forall (λ l, l < length h ∧ (l < n0 ∨ length h1 ≤ l)) (state_locs (state o)).

(** What the calls on a wrapper preserve, relative to the wrapper [w0]
    as constructed on a heap of [n0] cells, with [h1] the heap after
    the construction. *)
Definition wrapper_invariant (w0 : BNM) (n0 : nat) (h1 : heap) (w : BNM) (h : heap)
  : Prop :=
  state_dict "" (model w) = state_dict "" (model w0) ∧
  params (optimizer_ w) = params (optimizer_ w0) ∧
  model_state w = model_state w0 ∧
  optimizer_state w = optimizer_state w0 ∧
  episodic w = episodic w0 ∧
  snapshot_intact n0 h1 h ∧
  state_apart n0 h1 h (optimizer_ w).

Definition value_of (h : heap) (s : adam_state) : Z * storage * storage :=
  (step s, data_at h (exp_avg s), data_at h (exp_avg_sq s)).

(** Re-keying an optimizer state by position, as [state_dict()] does,
    and back by parameter, as [load_state_dict()] does. *)
Definition pack_state {V} (ps : list loc) (st : list (loc * V)) : list (nat * V) :=
  omap (λ e, (λ i, (i, e.2)) <$> index_of e.1 ps) st.

Definition unpack_state {V} (idxs : list nat) (ps : list loc) (sd : list (nat * V))
  : list (loc * V) :=
  omap (λ e, (λ p, (p, e.2)) <$> assoc e.1 (zip idxs ps)) sd.

(** No tensor of [ps] carries a gradient. *)
Definition no_gradient (ps : list loc) (h : heap) : Prop :=
  ∀ p, p ∈ ps → grad_at h p = None.






End torch.

Abbreviation heap := (list tensor).

Notation "'do' x <- c ; k" := (bind c (λ x, k))
  (at level 10, x name, c at level 100, k at level 200).
Notation "'do' ' p <- c ; k" := (bind c (λ x, match x with p => k end))
  (at level 10, p pattern, c at level 100, k at level 200).
Notation "c ;; k" := (bind c (λ _, k))
  (at level 100, k at level 200, right associativity).


(** * The adaptation script

    The epoch loop of [cifar/tent.py] and its stopping rule.  The
    errors [test(teloader, net)[0]] returns are values of a type [A]
    compared by [lt], the [<] of Python; list indexing, slicing and
    [min] are those of Python, with the exceptions they raise. *)

Inductive py_error := ListIndexOutOfRange | MinOfEmptySequence.

Inductive evaluation (B : Type) :=
| Returns (b : B)
| Fails (e : py_error).
#[global] Arguments Returns {B} b.
#[global] Arguments Fails {B} e.

Section script.
Context {A : Type} (lt : A → A → bool).

(** [l[i]] *)
Definition getitem (l : list A) (i : Z) : option A :=
  let n := Z.of_nat (length l) in
  if decide (0 ≤ i < n)%Z then l !! Z.to_nat i
  else if decide (- n ≤ i < 0)%Z then l !! Z.to_nat (n + i)
  else None.

(** [l[i:]] *)
Definition slice_from (l : list A) (i : Z) : list A :=
  let n := Z.of_nat (length l) in
  drop (Z.to_nat (if decide (i < 0)%Z then Z.max (n + i) 0 else Z.min i n)) l.

(** [min(l)]: the first item is kept until a later one is smaller. *)
Definition py_min (l : list A) : option A :=
  match l with
  | [] => None
  | x :: r => Some (foldl (λ min_item item, if lt item min_item then item else min_item) x r)
  end.

(** [epoch > (args.stopepoch + 1) and
     all_err_cls[-args.stopepoch] < min(all_err_cls[-args.stopepoch+1:])] *)
Definition termination (epoch stopepoch : Z) (all_err_cls : list A)
  : evaluation bool :=
  if bool_decide (epoch > stopepoch + 1)%Z then
    match getitem all_err_cls (- stopepoch) with
    | None => Fails ListIndexOutOfRange
    | Some a =>
        match py_min (slice_from all_err_cls (- stopepoch + 1)) with
        | None => Fails MinOfEmptySequence
        | Some m => Returns (lt a m)
        end
    end
  else Returns false.

Inductive loop_result :=
| Completed (all_err_cls : list A)
| Terminated (epoch : Z) (all_err_cls : list A)
| Raised (epoch : Z) (e : py_error).

(** The iterations of [for epoch in range(1, args.nepoch+1)] from
    [epoch] on; [upcoming] lists the errors [test(teloader, net)[0]]
    returns in these iterations. *)
Fixpoint epochs (stopepoch epoch : Z) (all_err_cls upcoming : list A) : loop_result :=
  match upcoming with
  | [] => Completed all_err_cls
  | err_cls :: upcoming =>
      let all_err_cls := all_err_cls ++ [err_cls] in
      match termination epoch stopepoch all_err_cls with
      | Returns true => Terminated epoch all_err_cls
      | Returns false => epochs stopepoch (epoch + 1) all_err_cls upcoming
      | Fails e => Raised epoch e
      end
  end.

Definition main_loop (stopepoch : Z) (errs : list A) : loop_result :=
  epochs stopepoch 1 [] errs.

(** The error [stopepoch] entries from the end is strictly below every
    later one. *)
Definition no_improvement (stopepoch : Z) (all_err_cls : list A) : bool :=
  let i := length all_err_cls - Z.to_nat stopepoch in
  bool_decide (stopepoch + 1 < Z.of_nat (length all_err_cls))%Z &&
  match all_err_cls !! i with
  | Some a => forallb (lt a) (drop (S i) all_err_cls)
  | None => false
  end.

End script.

(** ** A small instance

    Integer-valued tensors and a one-line network, used to run the
    definitions on concrete models. *)

Module Toy.

Definition sum_list (l : list Z) : Z := foldr Z.add 0%Z l.

#[export] Instance torch : Torch := {|
  scalar := Z;
  storage := Z;
  batch := Z;
  storage_inhabited := populate 0%Z;
  float_lit := λ q, (Qnum q / Zpos (Qden q))%Z;
  softmax_1d := λ r, r;
  torch_svd := λ x, (x, concat x, x);
  pow_int := Z.pow;
  torch_mean := sum_list;
  torch_sqrt := Z.sqrt;
  torch_neg := Z.opp;
  batch_nuclear_norm_vjp := λ x g, x;
  net_forward := λ m vals x, [vals];
  net_buffers := λ m vals x, (λ v, v + x)%Z <$> vals;
  net_vjp := λ m vals x g p, Some x;
  tensor_add := Z.add;
  zeros_like := λ _, 0%Z;
  adam_kernel := λ lr betas eps wd t p g m v, ((p - g)%Z, (m + g)%Z, (v + g * g)%Z);
|}.

(** A convolution followed by a batch-norm layer.  Heap cells: 0 the
    convolution weight, 1 and 2 the scale and shift of the norm layer,
    3 to 5 its running mean, running variance and batch counter. *)
Definition conv : module := Layer false [("weight", 0)] [] [].
Definition bn : module :=
  BatchNorm2d false (Some 1) (Some 2) true (Some 3) (Some 4) (Some 5).
Definition net : module := Layer false [] [] [("conv", conv); ("bn", bn)].

Definition cell (d : Z) (rg : bool) (g : option Z) : tensor := Tensor d rg g.

Definition heap0 : heap :=
  [cell 10 true None; cell 20 true None; cell 30 true None;
   cell 40 false None; cell 50 false None; cell 60 false None].

(** The same model once configured: only the scale and shift of the
    norm layer require gradients, and the running statistics are gone. *)
Definition net_configured : module :=
  Layer true [] []
    [("conv", Layer true [("weight", 0)] [] []);
     ("bn", BatchNorm2d true (Some 1) (Some 2) false None None (Some 5))].

Definition heap_configured : heap :=
  [cell 10 false None; cell 20 true None; cell 30 true None;
   cell 40 false None; cell 50 false None; cell 60 false None].

Definition group0 : param_group := ParamGroup 1%Z (0%Z, 0%Z) 0%Z 0%Z.
Definition adam0 : optim := Adam [0; 1; 2] group0 [].

(** The episodic wrapper [BNM(net_configured, adam0, steps=2,
    episodic=True)] and the heap its construction leaves: cells 6 to 9
    are the snapshot of the model. *)
Definition wrapper0 : BNM :=
  Bnm net_configured adam0 2 true
    (Some [("conv.weight", 6); ("bn.weight", 7); ("bn.bias", 8);
           ("bn.num_batches_tracked", 9)])
    (Some (OptimizerStateDict [] group0 [0; 1; 2])).

Definition heap1 : heap :=
  heap_configured ++
  [cell 10 false None; cell 20 false None; cell 30 false None; cell 60 false None].

End Toy.

(** * Properties *)

(** ** Module trees *)

Section module_induction.
Variable P : module → Prop.
Hypothesis P_norm : ∀ tr w b trs rm rv nbt, P (BatchNorm2d tr w b trs rm rv nbt).
Hypothesis P_layer :
  ∀ tr ps bs cs, Forall (λ nc, P nc.2) cs → P (Layer tr ps bs cs).

Fixpoint module_tree_ind (m : module) : P m :=
  match m with
  | BatchNorm2d tr w b trs rm rv nbt => P_norm tr w b trs rm rv nbt
  | Layer tr ps bs cs =>
      P_layer tr ps bs cs
        ((fix children (cs : list (string * module)) : Forall (λ nc, P nc.2) cs :=
            match cs with
            | [] => Forall_nil_2 _
            | nc :: r => Forall_cons_2 _ nc r (module_tree_ind nc.2) (children r)
            end) cs)
  end.

End module_induction.

Lemma train_map_nodes mode m : train mode m = map_nodes (set_training mode) m.
Proof.
  induction m as [|tr ps bs cs IH] using module_tree_ind; [done|].
  simpl. f_equal. induction IH as [|nc r Hnc _ IHr]; [done|].
  rewrite !fmap_cons. by rewrite Hnc, IHr.
Qed.

Lemma named_modules_map_nodes g prefix m :
  attribute_update g →
  named_modules prefix (map_nodes g m) = prod_map id (map_nodes g) <$> named_modules prefix m.
Proof.
  intros Hg. revert prefix.
  induction m as [tr w b trs rm rv nbt|tr ps bs cs IH] using module_tree_ind; intros prefix.
  - simpl. destruct (Hg (BatchNorm2d tr w b trs rm rv nbt)) as [_ Hk].
    destruct (g (BatchNorm2d tr w b trs rm rv nbt)) eqn:E; [|done]. done.
  - simpl. destruct (Hg (Layer tr ps bs cs)) as [_ Hk].
    destruct (g (Layer tr ps bs cs)) eqn:E; [done|]. subst. simpl. f_equal.
    clear E. induction IH as [|nc r Hnc _ IHr]; [done|].
    rewrite fmap_cons. simpl. rewrite fmap_app. by rewrite Hnc, IHr.
Qed.

Lemma attribute_update_training mode : attribute_update (set_training mode).
Proof. by intros []. Qed.
Lemma attribute_update_batch_stats : attribute_update use_batch_stats.
Proof. by intros []. Qed.

Lemma module_parameters_map_nodes g m :
  attribute_update g → module_parameters (map_nodes g m) = module_parameters m.
Proof.
  intros Hg. destruct (Hg m) as [Hp Hk]. destruct m; simpl; [done|].
  destruct (g (Layer _ _ _ _)); [done|]. by subst.
Qed.

Lemma isinstance_map_nodes g m :
  attribute_update g → isinstance_BatchNorm2d (map_nodes g m) = isinstance_BatchNorm2d m.
Proof.
  intros Hg. destruct (Hg m) as [_ Hk]. destruct m; simpl.
  - by destruct (g (BatchNorm2d _ _ _ _ _ _ _)).
  - by destruct (g (Layer _ _ _ _)).
Qed.

Lemma flat_map_fmap {A B C} (f : B → list C) (g : A → B) (l : list A) :
  flat_map f (g <$> l) = flat_map (λ a, f (g a)) l.
Proof. induction l as [|a l IH]; [done|]. rewrite fmap_cons. simpl. by rewrite IH. Qed.

Lemma named_parameters_map_nodes g m :
  attribute_update g → named_parameters (map_nodes g m) = named_parameters m.
Proof.
  intros Hg. unfold named_parameters. rewrite named_modules_map_nodes by done.
  rewrite flat_map_fmap. f_equal. apply flat_map_ext. intros [n md]. simpl.
  by rewrite module_parameters_map_nodes.
Qed.

Lemma parameters_map_nodes g m :
  attribute_update g → parameters (map_nodes g m) = parameters m.
Proof. intros. unfold parameters. by rewrite named_parameters_map_nodes. Qed.

Lemma modules_map_nodes g m :
  attribute_update g → modules (map_nodes g m) = map_nodes g <$> modules m.
Proof.
  intros. unfold modules. rewrite named_modules_map_nodes by done.
  rewrite <- !list_fmap_compose. by apply list_fmap_ext; intros ? [].
Qed.

Lemma collect_params_map_nodes g m b :
  attribute_update g → collect_params (map_nodes g m) b = collect_params m b.
Proof.
  intros Hg. unfold collect_params. rewrite named_parameters_map_nodes by done.
  destruct b; [|done]. rewrite named_modules_map_nodes by done.
  rewrite flat_map_fmap.
  assert (∀ l : list (string * module),
    flat_map (λ a, if isinstance_BatchNorm2d (prod_map id (map_nodes g) a).2 then
       flat_map (λ np_p, if decide (np_p.1 ∈ ["weight"; "bias"]) then
          [(np_p.2, (prod_map id (map_nodes g) a).1 +:+ "." +:+ np_p.1)] else [])
        (named_parameters (prod_map id (map_nodes g) a).2) else []) l =
    flat_map (λ nm_m, if isinstance_BatchNorm2d nm_m.2 then
       flat_map (λ np_p, if decide (np_p.1 ∈ ["weight"; "bias"]) then
          [(np_p.2, nm_m.1 +:+ "." +:+ np_p.1)] else [])
        (named_parameters nm_m.2) else []) l) as ->; [|done].
  intros l. apply flat_map_ext. intros [n md]. simpl.
  by rewrite isinstance_map_nodes, named_parameters_map_nodes.
Qed.

Lemma flag_update_training mode : flag_update (set_training mode).
Proof. split; [apply attribute_update_training|by intros []]. Qed.

Lemma module_buffers_map_nodes g m :
  flag_update g → module_buffers (map_nodes g m) = module_buffers m.
Proof.
  intros [Hg Hb]. specialize (Hb m). destruct (Hg m) as [_ Hk].
  destruct m; simpl; [done|].
  destruct (g (Layer _ _ _ _)); [done|]. by subst.
Qed.

Lemma state_dict_map_nodes g prefix m :
  flag_update g → state_dict prefix (map_nodes g m) = state_dict prefix m.
Proof.
  intros Hg. revert prefix.
  induction m as [tr w b trs rm rv nbt|tr ps bs cs IH] using module_tree_ind;
    intros prefix.
  - pose proof (module_parameters_map_nodes g (BatchNorm2d tr w b trs rm rv nbt)
                  (proj1 Hg)) as Hp.
    pose proof (module_buffers_map_nodes g (BatchNorm2d tr w b trs rm rv nbt) Hg)
      as Hb.
    destruct Hg as [Hg _]. destruct (Hg (BatchNorm2d tr w b trs rm rv nbt)) as [_ Hk].
    cbn [map_nodes] in *.
    destruct (g (BatchNorm2d tr w b trs rm rv nbt)); [|done].
    cbn [state_dict]. by rewrite Hp, Hb.
  - pose proof (module_parameters_map_nodes g (Layer tr ps bs cs) (proj1 Hg)) as Hp.
    pose proof (module_buffers_map_nodes g (Layer tr ps bs cs) Hg) as Hb.
    destruct Hg as [Hg _]. destruct (Hg (Layer tr ps bs cs)) as [_ Hk].
    cbn [map_nodes] in *.
    destruct (g (Layer tr ps bs cs)); [done|]. subst.
    cbn [with_children state_dict] in *. rewrite Hp, Hb. f_equal.
    clear Hp Hb. induction IH as [|nc r Hnc _ IHr]; [done|].
    rewrite fmap_cons. cbn [flat_map fst snd]. by rewrite Hnc, IHr.
Qed.

Lemma named_buffers_map_nodes g m :
  flag_update g → named_buffers (map_nodes g m) = named_buffers m.
Proof.
  intros Hg. unfold named_buffers. rewrite named_modules_map_nodes by apply Hg.
  rewrite flat_map_fmap. f_equal. apply flat_map_ext. intros [n md]. simpl.
  by rewrite module_buffers_map_nodes.
Qed.

Lemma buffers_map_nodes g m :
  flag_update g → buffers (map_nodes g m) = buffers m.
Proof. intros. unfold buffers. by rewrite named_buffers_map_nodes. Qed.

(** ** [configure_model] *)

Section configure.
Context `{Torch}.

Lemma forM_modify {A} (l : list A) (f : A → heap → heap) (h : heap) :
  forM_ l (λ a, modify (f a)) h = Ok (tt, foldl (λ h a, f a h) h l).
Proof.
  revert h. induction l as [|a l IH]; intros h; [done|].
  simpl. unfold bind, modify at 1. by rewrite IH.
Qed.

Lemma requires_grad__run b m h :
  requires_grad_ b m h = Ok (tt, set_all b (parameters m) h).
Proof. unfold requires_grad_. by rewrite forM_modify. Qed.

Lemma set_all_cons b p ps h :
  set_all b (p :: ps) h = set_all b ps (alter (set_requires_grad b) p h).
Proof. done. Qed.

Lemma set_all_app b ps qs h :
  set_all b (ps ++ qs) h = set_all b qs (set_all b ps h).
Proof. apply foldl_app. Qed.

Lemma set_all_length b ps h : length (set_all b ps h) = length h.
Proof.
  revert h. induction ps as [|p ps IH]; intros h; [done|].
  by rewrite set_all_cons, IH, length_alter.
Qed.

Lemma set_all_requires_grad b ps h l :
  l < length h →
  requires_grad_at (set_all b ps h) l =
    if decide (l ∈ ps) then b else requires_grad_at h l.
Proof.
  revert h. induction ps as [|p ps IH]; intros h Hl.
  - case_decide as Hin; [by apply elem_of_nil in Hin|done].
  - rewrite set_all_cons, IH by by rewrite length_alter.
    destruct (decide (l ∈ ps)) as [Hin|Hin].
    + by rewrite decide_True by by right.
    + unfold requires_grad_at. rewrite list_lookup_total_alter.
      repeat case_decide; try done; exfalso; set_solver.
Qed.

Lemma for_modules_configure_norm m h :
  for_modules configure_norm m h =
    Ok (map_nodes use_batch_stats m, set_all true (norm_parameters m) h).
Proof.
  revert h. unfold norm_parameters, modules.
  generalize "" at 1.
  induction m as [tr w b trs rm rv nbt|tr ps bs cs IH] using module_tree_ind;
    intros prefix h.
  - simpl. unfold bind. rewrite requires_grad__run. simpl. by rewrite app_nil_r.
  - simpl. unfold bind at 1. unfold ret at 1. unfold bind at 1.
    assert (∀ h,
      mapM (λ nc, do c' <- for_modules configure_norm nc.2; ret (nc.1, c')) cs h =
      Ok ((λ nc, (nc.1, map_nodes use_batch_stats nc.2)) <$> cs,
          set_all true
            (flat_map (λ md, if isinstance_BatchNorm2d md then parameters md else [])
               (flat_map (λ nc, named_modules (join prefix nc.1) nc.2) cs).*2) h)) as ->;
      [|done].
    clear h. induction IH as [|nc r Hnc _ IHr]; intros h; [done|].
    simpl. unfold bind at 1. unfold bind at 1. rewrite (Hnc (join prefix nc.1)). unfold ret at 1.
    unfold bind at 1. rewrite IHr. unfold ret.
    by rewrite fmap_app, flat_map_app, set_all_app.
Qed.

Lemma elem_of_flat_map {A B} (f : A → list B) (l : list A) (y : B) :
  y ∈ flat_map f l ↔ ∃ x, x ∈ l ∧ y ∈ f x.
Proof.
  rewrite list_elem_of_In, in_flat_map. by setoid_rewrite list_elem_of_In.
Qed.

Lemma norm_parameters_collect m : (collect_params m true).1 = norm_parameters m.
Proof.
  unfold collect_params, norm_parameters, modules. simpl.
  induction (named_modules "" m) as [|[nm md] l IH]; [done|].
  simpl. rewrite !fmap_app, IH. f_equal.
  destruct md as [tr w b trs rm rv nbt|]; [|done]. simpl.
  unfold parameters, named_parameters. simpl. rewrite app_nil_r.
  destruct w as [w|], b as [b|]; simpl; try done.
  destruct (decide (b ∈ [w])); done.
Qed.

(** C1.  [configure_model] returns the model it was given, with the
    same parameters; among the parameters of the returned model,
    exactly the scale and shift parameters of its [BatchNorm2d] layers
    (the list [collect_params] yields with [bn_only = True]) have
    [requires_grad] set; and every [BatchNorm2d] layer has
    [track_running_stats = False] and its running mean and variance
    set to [None]. *)
Theorem configure_model_trainable (model : module) (h : heap) :
  ∃ model' h',
    configure_model model h = Ok (model', h') ∧
    parameters model' = parameters model ∧
    (∀ p, p ∈ parameters model' → p < length h →
       (requires_grad_at h' p = true ↔ p ∈ (collect_params model' true).1)) ∧
    (∀ m, m ∈ modules model' → isinstance_BatchNorm2d m = true →
       track_running_stats m = false ∧ running_mean m = None ∧ running_var m = None).
Proof.
  eexists _, _. split.
  { unfold configure_model, bind. rewrite requires_grad__run.
    rewrite for_modules_configure_norm. reflexivity. }
  rewrite train_map_nodes.
  split; [|split].
  - rewrite !parameters_map_nodes;
      auto using attribute_update_training, attribute_update_batch_stats.
  - intros p Hp Hlt.
    rewrite !collect_params_map_nodes
      by auto using attribute_update_training, attribute_update_batch_stats.
    rewrite !parameters_map_nodes in Hp
      by auto using attribute_update_training, attribute_update_batch_stats.
    rewrite norm_parameters_collect.
    rewrite set_all_requires_grad by by rewrite set_all_length.
    rewrite set_all_requires_grad by done.
    rewrite parameters_map_nodes by apply attribute_update_training.
    rewrite (decide_True _ _ Hp).
    assert (norm_parameters (map_nodes (set_training true) model) = norm_parameters model) as ->.
    { rewrite <- !norm_parameters_collect.
      by rewrite collect_params_map_nodes by apply attribute_update_training. }
    case_decide; naive_solver.
  - intros m Hm Hbn.
    rewrite modules_map_nodes in Hm by apply attribute_update_batch_stats.
    apply list_elem_of_fmap in Hm as (m0 & -> & _).
    by destruct m0.
Qed.

Lemma set_all_lookup b ps (h : heap) l :
  set_all b ps h !! l =
    if decide (l ∈ ps) then set_requires_grad b <$> h !! l else h !! l.
Proof.
  revert h. induction ps as [|p ps IH]; intros h.
  - case_decide as Hin; [by apply elem_of_nil in Hin|done].
  - rewrite set_all_cons, IH, list_lookup_alter.
    repeat case_decide; subst; try done; try (exfalso; set_solver).
    all: by destruct (h !! l).
Qed.

Lemma norm_parameters_map_nodes g m :
  attribute_update g → norm_parameters (map_nodes g m) = norm_parameters m.
Proof.
  intros. rewrite <- !norm_parameters_collect. by rewrite collect_params_map_nodes.
Qed.

Lemma configure_model_run model h :
  configure_model model h =
    Ok (map_nodes use_batch_stats (train true model),
        set_all true (norm_parameters model)
          (set_all false (parameters model) h)).
Proof.
  unfold configure_model, bind. rewrite requires_grad__run.
  rewrite for_modules_configure_norm. unfold ret.
  rewrite (train_map_nodes true model).
  rewrite parameters_map_nodes by apply attribute_update_training.
  by rewrite norm_parameters_map_nodes by apply attribute_update_training.
Qed.

Lemma configured_fixpoint m :
  map_nodes use_batch_stats (train true (map_nodes use_batch_stats (train true m))) =
  map_nodes use_batch_stats (train true m).
Proof.
  induction m as [|tr ps bs cs IH] using module_tree_ind; [done|].
  simpl. f_equal. induction IH as [|nc r Hnc _ IHr]; [done|].
  rewrite !fmap_cons. simpl. rewrite Hnc. f_equal. apply IHr.
Qed.

(** C9.  [configure_model] is idempotent: run on its own result it
    returns the very same model and leaves every tensor as it is, so
    the trainable parameters and the statistics mode of the
    normalization layers are those of a single run. *)
Theorem configure_model_idempotent (model : module) (h : heap) :
  ∃ model' h',
    configure_model model h = Ok (model', h') ∧
    configure_model model' h' = Ok (model', h').
Proof.
  eexists _, _. split; [apply configure_model_run|].
  rewrite configure_model_run, configured_fixpoint. do 2 f_equal.
  rewrite norm_parameters_map_nodes by apply attribute_update_batch_stats.
  rewrite parameters_map_nodes by apply attribute_update_batch_stats.
  rewrite (train_map_nodes true model).
  rewrite norm_parameters_map_nodes by apply attribute_update_training.
  rewrite parameters_map_nodes by apply attribute_update_training.
  apply list_eq. intros l. rewrite !set_all_lookup.
  destruct (h !! l) as [[d rg g]|]; repeat case_decide; done.
Qed.

End configure.

(** ** [check_model] *)

Section check.
Context `{Torch}.

Lemma any_false {A} (f : A → bool) (l : list A) :
  any (f <$> l) = false ↔ ∀ a, a ∈ l → f a = false.
Proof.
  unfold any. induction l as [|a l IH]; simpl.
  - split; [|done]. by intros _ a ?%elem_of_nil.
  - rewrite orb_false_iff, IH. unfold id. split.
    + intros [Ha Hl] b [->|Hb]%elem_of_cons; auto.
    + intros Hl. split; [apply Hl; by left|]. intros b Hb. apply Hl. by right.
Qed.

Lemma all_true {A} (f : A → bool) (l : list A) :
  all (f <$> l) = true ↔ ∀ a, a ∈ l → f a = true.
Proof.
  unfold all. induction l as [|a l IH]; simpl.
  - split; [|done]. by intros _ a ?%elem_of_nil.
  - rewrite andb_true_iff, IH. unfold id. split.
    + intros [Ha Hl] b [->|Hb]%elem_of_cons; auto.
    + intros Hl. split; [apply Hl; by left|]. intros b Hb. apply Hl. by right.
Qed.

Ltac rejected :=
  split; [split; [intros _; tauto | intros _; eauto] |
  split; [intros ? [= <-]; tauto | intros Hn; exfalso; apply Hn; tauto]].

(** C6.  [check_model] raises exactly when the model is not in training
    mode, or none of its parameters requires gradients, or all of them
    do, or it has no [BatchNorm2d] layer; the exception is the
    [AssertionError] whose message names a condition that is violated;
    and on a model that meets the four requirements it returns [None]
    with every tensor as it was. *)
Theorem check_model_raises_iff (model : module) (h : heap) :
  ((∃ e, check_model model h = Raise e) ↔
     training model = false ∨ no_parameter_trainable model h ∨
     all_parameters_trainable model h ∨ no_norm_layer model) ∧
  (∀ e, check_model model h = Raise e →
     (e = AssertionError "BNM needs train mode: call model.train()" ∧
      training model = false) ∨
     (e = AssertionError "BNM needs params to update: check which require grad" ∧
      no_parameter_trainable model h) ∨
     (e = AssertionError "BNM should not update all params: check which require grad" ∧
      all_parameters_trainable model h) ∨
     (e = AssertionError "BNM needs normalization for its optimization" ∧
      no_norm_layer model)) ∧
  (¬ (training model = false ∨ no_parameter_trainable model h ∨
      all_parameters_trainable model h ∨ no_norm_layer model) →
   check_model model h = Ok (tt, h)).
Proof.
  pose proof (any_false (requires_grad_at h) (parameters model)) as Hany.
  pose proof (all_true (requires_grad_at h) (parameters model)) as Hall.
  pose proof (any_false isinstance_BatchNorm2d (modules model)) as Hbn.
  fold (no_parameter_trainable model h) in Hany.
  fold (all_parameters_trainable model h) in Hall.
  fold (no_norm_layer model) in Hbn.
  unfold check_model, bind, assert, get_heap, ret, raise.
  destruct (training model) eqn:Htr; [|by rejected].
  destruct (any (requires_grad_at h <$> parameters model));
    [|destruct Hany as [Hany _]; specialize (Hany eq_refl); by rejected].
  destruct (all (requires_grad_at h <$> parameters model)); simpl;
    [destruct Hall as [Hall _]; specialize (Hall eq_refl); by rejected|].
  destruct (any (isinstance_BatchNorm2d <$> modules model));
    [|destruct Hbn as [Hbn _]; specialize (Hbn eq_refl); by rejected].
  assert (¬ no_parameter_trainable model h) by (by intros ?%Hany).
  assert (¬ all_parameters_trainable model h) by (by intros ?%Hall).
  assert (¬ no_norm_layer model) by (by intros ?%Hbn).
  split; [|split]; [|by intros e [=]|done].
  split; [by intros [e [=]]|]. intros [?|[?|[?|?]]]; done.
Qed.

End check.

(** ** [batch_nuclear_norm] *)

Section loss.
Context `{Torch}.


End loss.

(** ** Running the monadic operations *)

Section runs.
Context `{Torch}.

Lemma mapM_app {A B} (f : A → M B) (l k : list A) (h : heap) :
  mapM f (l ++ k) h =
    match mapM f l h with
    | Ok (bs, h') =>
        match mapM f k h' with
        | Ok (cs, h'') => Ok (bs ++ cs, h'')
        | Raise e => Raise e
        end
    | Raise e => Raise e
    end.
Proof.
  revert h. induction l as [|a l IH]; intros h; simpl.
  - unfold ret. by destruct (mapM f k h) as [[]|].
  - unfold bind. destruct (f a h) as [[b h1]|]; [|done].
    rewrite IH. destruct (mapM f l h1) as [[bs h2]|]; [|done].
    unfold ret. by destruct (mapM f k h2) as [[]|].
Qed.

Lemma call_run grad_enabled model x h :
  call grad_enabled model x h =
    Ok (Outputs (net_forward model (state_values model h) x)
          (if grad_enabled && negb (bool_decide (leaves model h = [])) then
             Some (leaf_grads model h x)
           else None),
        write_all (zip (buffers model) (net_buffers model (state_values model h) x)) h).
Proof. unfold call, bind, get_heap. by rewrite forM_modify. Qed.

Lemma backward_run l h :
  backward l h =
    Ok (tt, match loss_grad_fn l with
            | Some grad_fn => accumulate_all (grad_fn (float_lit 1)) h
            | None => h
            end).
Proof. unfold backward. destruct (loss_grad_fn l); [|done]. by rewrite forM_modify. Qed.

Lemma zero_grad_run o h : zero_grad o h = Ok (tt, clear_grads (params o) h).
Proof. unfold zero_grad. by rewrite forM_modify. Qed.

Lemma adam_update_run g st p h :
  adam_update g st p h = Ok (adam_update_result g st p h).
Proof.
  unfold adam_update, adam_update_result, bind, get_heap.
  destruct (grad_at h p) as [gr|]; [|done].
  destruct (assoc p st) as [s|]; simpl.
  - unfold ret, modify. by destruct (adam_kernel _ _ _ _ _ _ _ _ _) as [[??]?].
  - unfold alloc, ret, modify. rewrite length_app. simpl.
    replace (length h + 1) with (S (length h)) by lia.
    rewrite <- app_assoc. simpl.
    by destruct (adam_kernel _ _ _ _ _ _ _ _ _) as [[??]?].
Qed.

Lemma foldM_adam_update g ps st h :
  foldM (adam_update g) st ps h = Ok (adam_fold g ps (st, h)).
Proof.
  revert st h. induction ps as [|p ps IH]; intros st h; [done|].
  change (adam_fold g (p :: ps) (st, h))
    with (adam_fold g ps (adam_update_result g st p h)).
  cbn [foldM]. unfold bind. rewrite adam_update_run.
  destruct (adam_update_result g st p h) as [st' h']. apply IH.
Qed.

Lemma leaf_grads_nil model h x g : leaves model h = [] → leaf_grads model h x g = [].
Proof. unfold leaf_grads. by intros ->. Qed.

Lemma forward_and_adapt_run x model o h :
  forward_and_adapt x model o h =
    Ok ((adapted x model o h).1, (adapted x model o h).2).
Proof.
  unfold forward_and_adapt, bind. rewrite call_run, backward_run.
  unfold optimizer_step, bind. rewrite foldM_adam_update. unfold adapted.
  cbn [batch_nuclear_norm_node loss_grad_fn out_grad_fn out_value fst snd].
  destruct (bool_decide (leaves (train true model) h = [])) eqn:E;
    cbn [negb fmap option_fmap option_map].
  - apply bool_decide_eq_true in E. rewrite (leaf_grads_nil _ _ _ _ E).
    change (accumulate_all [] ?k) with k.
    destruct (adam_fold _ _ _) as [st' h']. unfold ret. by rewrite zero_grad_run.
  - destruct (adam_fold _ _ _) as [st' h']. unfold ret. by rewrite zero_grad_run.
Qed.

Lemma forward_only_run x model h :
  forward_only x model h =
    Ok ((Outputs (net_forward (eval model) (state_values (eval model) h) x) None,
         eval model),
        write_all (zip (buffers (eval model))
                     (net_buffers (eval model) (state_values (eval model) h) x)) h).
Proof. unfold forward_only, bind. by rewrite call_run. Qed.

End runs.

(** ** Footprints *)

Section frames.
Context `{Torch}.

Lemma unchanged_outside_refl W (h : heap) : unchanged_outside W h h.
Proof. by split. Qed.

Lemma unchanged_outside_trans W W' (h h' h'' : heap) :
  unchanged_outside W h h' → unchanged_outside W' h' h'' →
  (∀ l, l < length h → W' l → W l) →
  unchanged_outside W h h''.
Proof.
  intros [Hlen Hh] [Hlen' Hh'] HW. split; [lia|].
  intros l Hl HWl. rewrite Hh' by (try lia; naive_solver). by apply Hh.
Qed.

Lemma unchanged_outside_weaken (W W' : loc → Prop) (h h' : heap) :
  unchanged_outside W h h' → (∀ l, l < length h → W l → W' l) →
  unchanged_outside W' h h'.
Proof. intros [Hlen Hh] HW. split; [done|]. intros l ??. apply Hh; naive_solver. Qed.

Lemma unchanged_outside_alter (W : loc → Prop) f l (h : heap) :
  (l < length h → W l) → unchanged_outside W h (alter f l h).
Proof.
  intros HW. split; [by rewrite length_alter|]. intros i Hi HWi.
  apply list_lookup_alter_ne. intros ->. by apply HWi, HW.
Qed.

Lemma unchanged_outside_alter_r (W : loc → Prop) f l (h h' : heap) :
  unchanged_outside W h h' → (l < length h → W l) →
  unchanged_outside W h (alter f l h').
Proof.
  intros [Hlen Hh] HW. split; [by rewrite length_alter|]. intros i Hi HWi.
  rewrite list_lookup_alter_ne; [by apply Hh|]. intros ->. by apply HWi, HW.
Qed.

Lemma unchanged_outside_app W (h k : heap) : unchanged_outside W h (h ++ k).
Proof.
  split; [rewrite length_app; lia|]. intros l Hl _. by apply lookup_app_l.
Qed.

Lemma foldl_alter_length {A} (f : A → tensor → tensor) (key : A → loc)
    (l : list A) (h : heap) :
  length (foldl (λ h a, alter (f a) (key a) h) h l) = length h.
Proof.
  revert h. induction l as [|a l IH]; intros h; [done|].
  simpl. by rewrite IH, length_alter.
Qed.

Lemma foldl_alter_unchanged {A} (f : A → tensor → tensor) (key : A → loc)
    (W : loc → Prop) (l : list A) (h : heap) :
  (∀ a, a ∈ l → W (key a)) →
  unchanged_outside W h (foldl (λ h a, alter (f a) (key a) h) h l).
Proof.
  revert h. induction l as [|a l IH]; intros h HW; [apply unchanged_outside_refl|].
  simpl. eapply unchanged_outside_trans; [| |by intros l' _ Hl'; exact Hl'].
  - apply unchanged_outside_alter. intros _. apply HW. by left.
  - apply IH. intros b Hb. apply HW. by right.
Qed.

(** A pointwise relation between the cells before and after a run of
    in-place updates. *)
Lemma foldl_alter_related {A} (R : relation tensor) `{!PreOrder R}
    (f : A → tensor → tensor) (key : A → loc) (l : list A) (h : heap) :
  (∀ a t, R t (f a t)) →
  Forall2 R h (foldl (λ h a, alter (f a) (key a) h) h l).
Proof.
  intros Hf. revert h. induction l as [|a l IH]; intros h; [by apply Forall_Forall2_diag, Forall_forall|].
  simpl. etrans; [|apply IH].
  apply Forall2_same_length_lookup. split; [by rewrite length_alter|].
  intros i t t' Ht Ht'. rewrite list_lookup_alter in Ht'.
  case_decide; simplify_eq.
  - rewrite Ht in Ht'. simpl in Ht'. simplify_eq. apply Hf.
  - done.
Qed.

Lemma write_all_length ws (h : heap) : length (write_all ws h) = length h.
Proof. apply foldl_alter_length. Qed.
Lemma accumulate_all_length gs (h : heap) : length (accumulate_all gs h) = length h.
Proof. apply foldl_alter_length. Qed.
Lemma clear_grads_length ps (h : heap) : length (clear_grads ps h) = length h.
Proof. apply (foldl_alter_length (λ _, set_grad None) id). Qed.

Lemma leaf_grads_leaves model h x g p d :
  (p, d) ∈ leaf_grads model h x g → p ∈ parameters model.
Proof.
  unfold leaf_grads, leaves. intros (q & Hq & Hd)%list_elem_of_omap.
  destruct (net_vjp _ _ _ _ q); simplify_eq/=.
  apply list_elem_of_In, filter_In in Hq as [Hq _]. by apply list_elem_of_In.
Qed.

End frames.

Section adam_frames.
Context `{Torch}.

Lemma assoc_state_locs p (st : list (loc * adam_state)) s :
  assoc p st = Some s →
  exp_avg s ∈ state_locs st ∧ exp_avg_sq s ∈ state_locs st.
Proof.
  induction st as [|[q s'] st IH]; [done|]. simpl. case_decide.
  - intros [= ->]. split; [by left|by right; left].
  - intros [??]%IH. split; by do 2 right.
Qed.

Lemma state_locs_assoc_set p s (st : list (loc * adam_state)) l :
  l ∈ state_locs (assoc_set p s st) →
  l ∈ state_locs st ∨ l = exp_avg s ∨ l = exp_avg_sq s.
Proof.
  induction st as [|[q s'] st IH]; simpl.
  - rewrite !elem_of_cons. naive_solver.
  - case_decide; simpl; rewrite !elem_of_cons; naive_solver.
Qed.

Lemma adam_update_result_frame g st p (h : heap) :
  unchanged_outside (λ l, l = p ∨ l ∈ state_locs st) h (adam_update_result g st p h).2 ∧
  (∀ l, l ∈ state_locs (adam_update_result g st p h).1 →
     l ∈ state_locs st ∨ length h ≤ l < length (adam_update_result g st p h).2).
Proof.
  unfold adam_update_result. destruct (grad_at h p) as [gr|];
    [|split; [apply unchanged_outside_refl|by left]].
  destruct (assoc p st) as [s|] eqn:Hs; cbn [default fst snd].
  - apply assoc_state_locs in Hs as [Hm Hv]. split.
    + do 3 (apply unchanged_outside_alter_r; [|intros _; auto]).
      apply unchanged_outside_refl.
    + intros l [?|[->| ->]]%state_locs_assoc_set; cbn [exp_avg exp_avg_sq]; auto.
  - split.
    + do 3 (apply unchanged_outside_alter_r; [|cbn [exp_avg exp_avg_sq]; intros ?; auto; lia]).
      apply unchanged_outside_app.
    + intros l [?|[->| ->]]%state_locs_assoc_set; cbn [exp_avg exp_avg_sq]; auto;
        right; rewrite !length_alter, length_app; simpl; lia.
Qed.

Lemma adam_fold_frame g ps st (h : heap) :
  unchanged_outside (λ l, l ∈ ps ∨ l ∈ state_locs st) h (adam_fold g ps (st, h)).2 ∧
  (∀ l, l ∈ state_locs (adam_fold g ps (st, h)).1 →
     l ∈ state_locs st ∨ length h ≤ l < length (adam_fold g ps (st, h)).2).
Proof.
  revert st h. induction ps as [|p ps IH]; intros st h.
  { split; [apply unchanged_outside_refl|by left]. }
  change (adam_fold g (p :: ps) (st, h))
    with (adam_fold g ps (adam_update_result g st p h)).
  destruct (adam_update_result_frame g st p h) as [Hu Hl].
  destruct (adam_update_result g st p h) as [st1 h1]. cbn [fst snd] in *.
  destruct (IH st1 h1) as [Hu' Hl']. split.
  - eapply unchanged_outside_trans; [| exact Hu' |].
    + eapply unchanged_outside_weaken; [exact Hu|].
      intros l _ [->|?]; [left; by left|by right].
    + intros l Hlt [?|[?|?]%Hl]; [left; by right|by right|lia].
  - destruct Hu as [Hlen _], Hu' as [Hlen' _].
    intros l [[?|?]%Hl|?]%Hl'; [by left|right; lia|right; lia].
Qed.

Lemma adapted_frame x model o (h : heap) :
  unchanged_outside (adapt_footprint model o) h (adapted x model o h).2 ∧
  (∀ l, l ∈ state_locs (state (adapted x model o h).1.2) →
     l ∈ state_locs (state o) ∨ length h ≤ l < length (adapted x model o h).2).
Proof.
  unfold adapted. simpl.
  set (m := train true model). set (ws := zip _ _). set (gs := leaf_grads _ _ _ _).
  destruct (adam_fold_frame (group o) (params o) (state o)
              (accumulate_all gs (write_all ws h))) as [Hu Hl].
  rewrite accumulate_all_length, write_all_length in Hl.
  split.
  - eapply unchanged_outside_trans;
      [|apply (foldl_alter_unchanged (λ _, set_grad None) id
                 (adapt_footprint model o))|by intros l _ Hl'; exact Hl'].
    + eapply unchanged_outside_trans;
        [|eapply unchanged_outside_weaken; [exact Hu|]|by intros l _ Hl'; exact Hl'].
      * eapply unchanged_outside_trans;
          [|apply (foldl_alter_unchanged _ _ (adapt_footprint model o))|
           by intros l _ Hl'; exact Hl'].
        -- apply (foldl_alter_unchanged _ _ (adapt_footprint model o)).
           intros [b d] Hb. apply elem_of_zip_l in Hb. left.
           subst m. rewrite train_map_nodes in Hb.
           by rewrite buffers_map_nodes in Hb by apply flag_update_training.
        -- intros [p d] Hp. right; left. apply leaf_grads_leaves in Hp.
           subst m. rewrite train_map_nodes in Hp.
           by rewrite parameters_map_nodes in Hp by apply attribute_update_training.
      * intros l _ [?|?]; [right; right; by left|by do 3 right].
    + intros p Hp. right; right; by left.
  - intros l Hl'. apply Hl in Hl'. by rewrite clear_grads_length.
Qed.

End adam_frames.

(** ** [train], [eval] and [forward_only] *)

Section evaluation.
Context `{Torch}.

Lemma training_train mode m md : md ∈ modules (train mode m) → training md = mode.
Proof.
  rewrite train_map_nodes, modules_map_nodes by apply attribute_update_training.
  intros (m0 & -> & _)%list_elem_of_fmap. by destruct m0.
Qed.

Lemma buffers_train mode m : buffers (train mode m) = buffers m.
Proof. rewrite train_map_nodes. apply buffers_map_nodes, flag_update_training. Qed.

Lemma parameters_train mode m : parameters (train mode m) = parameters m.
Proof.
  rewrite train_map_nodes. apply parameters_map_nodes, attribute_update_training.
Qed.

Lemma state_dict_train mode prefix m :
  state_dict prefix (train mode m) = state_dict prefix m.
Proof. rewrite train_map_nodes. apply state_dict_map_nodes, flag_update_training. Qed.


#[global] Instance same_autograd_preorder : PreOrder same_autograd.
Proof.
  split; [by intros ?|]. intros t1 t2 t3 [??] [??]. split; congruence.
Qed.

#[global] Instance same_requires_grad_preorder : PreOrder same_requires_grad.
Proof. split; [by intros ?|]. intros t1 t2 t3 ??. unfold same_requires_grad in *. congruence. Qed.

Lemma foldl_alter_lookup_outside {A} (f : A → tensor → tensor) (key : A → loc)
    (l : list A) (h : heap) (i : loc) :
  i ∉ key <$> l → foldl (λ h a, alter (f a) (key a) h) h l !! i = h !! i.
Proof.
  revert h. induction l as [|a l IH]; intros h Hi; [done|].
  rewrite fmap_cons, not_elem_of_cons in Hi. destruct Hi as [Hne Hi].
  simpl. rewrite IH by done. by apply list_lookup_alter_ne.
Qed.

Lemma write_all_total_related ws (h : heap) l :
  same_autograd (h !!! l) (write_all ws h !!! l).
Proof.
  pose proof (foldl_alter_related same_autograd (λ w : loc * storage, set_data w.2)
                fst ws h) as HR.
  assert (∀ (w : loc * storage) (t : tensor), same_autograd t (set_data w.2 t))
    as Hf by done.
  specialize (HR Hf). fold (write_all ws h) in HR.
  destruct (h !! l) as [t|] eqn:Ht.
  - destruct (Forall2_lookup_l _ _ _ _ _ HR Ht) as (t' & Ht' & Htt').
    by rewrite (list_lookup_total_correct _ _ _ Ht), (list_lookup_total_correct _ _ _ Ht').
  - apply lookup_ge_None in Ht.
    rewrite !list_lookup_total_alt, (lookup_ge_None_2 h) by done.
    by rewrite lookup_ge_None_2 by by rewrite write_all_length.
Qed.

(** [forward_only] never raises.  It returns the model with every
    module in evaluation mode and an output that carries no autograd
    graph, computed by the network from the tensors as they are on
    entry; it writes nothing but the contents of buffers of the model:
    every other tensor is untouched, and no [requires_grad] flag or
    gradient changes. *)
Theorem forward_only_effect (x : batch) (model : module) (h : heap) :
  ∃ out h',
    forward_only x model h = Ok ((out, eval model), h') ∧
    out_value out = net_forward (eval model) (state_values model h) x ∧
    out_grad_fn out = None ∧
    (∀ m, m ∈ modules (eval model) → training m = false) ∧
    length h' = length h ∧
    (∀ l, l ∉ buffers model → h' !! l = h !! l) ∧
    (∀ l, requires_grad_at h' l = requires_grad_at h l ∧ grad_at h' l = grad_at h l).
Proof.
  eexists _, _. split; [apply forward_only_run|]. cbn [out_value out_grad_fn].
  unfold eval. unfold state_values. rewrite state_dict_train, buffers_train.
  split; [done|]. split; [done|]. split; [by intros m ?%training_train|].
  split; [apply write_all_length|]. split.
  - intros l Hl. apply foldl_alter_lookup_outside.
    intros (w & -> & Hw)%list_elem_of_fmap. apply Hl.
    destruct w as [b d]. by apply elem_of_zip_l in Hw.
  - intros l. apply write_all_total_related.
Qed.

End evaluation.

(** ** [forward_and_adapt] *)

Ltac related_by lem := apply lem; try apply _; try done.

Section adaptation.
Context `{Torch}.

Lemma cells_related_refl R `{!PreOrder R} (h : heap) : cells_related R h h.
Proof. intros l t Ht. by exists t. Qed.

Lemma cells_related_trans R `{!PreOrder R} (h1 h2 h3 : heap) :
  cells_related R h1 h2 → cells_related R h2 h3 → cells_related R h1 h3.
Proof.
  intros H12 H23 l t Ht. destruct (H12 l t Ht) as (t' & Ht' & ?).
  destruct (H23 l t' Ht') as (t'' & Ht'' & ?). exists t''. split; [done|by etrans].
Qed.

Lemma cells_related_weaken (R R' : relation tensor) (h h' : heap) :
  (∀ t t', R t t' → R' t t') → cells_related R h h' → cells_related R' h h'.
Proof. intros HR Hh l t Ht. destruct (Hh l t Ht) as (t' & ? & ?). eauto. Qed.

Lemma cells_related_alter R `{!PreOrder R} f l (h : heap) :
  (∀ t, R t (f t)) → cells_related R h (alter f l h).
Proof.
  intros Hf i t Ht. rewrite list_lookup_alter. case_decide; subst.
  - rewrite Ht. eexists. split; [done|apply Hf].
  - by exists t.
Qed.

Lemma cells_related_app R `{!PreOrder R} (h k : heap) : cells_related R h (h ++ k).
Proof. intros l t Ht. exists t. split; [by apply lookup_app_l_Some|done]. Qed.

Lemma cells_related_foldl {A} R `{!PreOrder R} (f : A → tensor → tensor)
    (key : A → loc) (l : list A) (h : heap) :
  (∀ a t, R t (f a t)) →
  cells_related R h (foldl (λ h a, alter (f a) (key a) h) h l).
Proof.
  intros Hf. revert h. induction l as [|a l IH]; intros h;
    [by related_by cells_related_refl|].
  simpl. eapply cells_related_trans; [done| |apply IH].
  by related_by cells_related_alter.
Qed.

Lemma cells_related_length R (h h' : heap) :
  cells_related R h h' → length h ≤ length h'.
Proof.
  intros Hh. destruct (decide (length h = 0)) as [|Hne]; [lia|].
  destruct (lookup_lt_is_Some_2 h (length h - 1)) as [t Ht]; [lia|].
  destruct (Hh _ _ Ht) as (t' & Ht' & _). apply lookup_lt_Some in Ht'. lia.
Qed.

Lemma adam_update_result_related g st p (h : heap) :
  cells_related same_autograd h (adam_update_result g st p h).2.
Proof.
  unfold adam_update_result. destruct (grad_at h p); cbn [snd];
    [|by related_by cells_related_refl].
  do 3 (eapply cells_related_trans;
          [apply _| |by related_by cells_related_alter]).
  destruct (assoc p st);
    [by related_by cells_related_refl|by related_by cells_related_app].
Qed.

Lemma adam_fold_related g ps st (h : heap) :
  cells_related same_autograd h (adam_fold g ps (st, h)).2.
Proof.
  revert st h. induction ps as [|p ps IH]; intros st h;
    [by related_by cells_related_refl|].
  change (adam_fold g (p :: ps) (st, h))
    with (adam_fold g ps (adam_update_result g st p h)).
  pose proof (adam_update_result_related g st p h) as Hr.
  destruct (adam_update_result g st p h) as [st1 h1].
  eapply cells_related_trans; [apply _|exact Hr|apply IH].
Qed.

Lemma same_autograd_requires_grad t t' : same_autograd t t' → same_requires_grad t t'.
Proof. by intros [??]. Qed.

Lemma adapted_related x model o (h : heap) :
  cells_related same_requires_grad h (adapted x model o h).2.
Proof.
  unfold adapted. cbn [snd].
  eapply cells_related_trans;
    [apply _| |by related_by (cells_related_foldl same_requires_grad
                               (λ _ : loc, set_grad None) id)].
  eapply cells_related_trans;
    [apply _| |eapply cells_related_weaken;
                 [apply same_autograd_requires_grad|apply adam_fold_related]].
  eapply cells_related_trans;
    [apply _| |by related_by (cells_related_foldl (A:=loc * storage)
                               same_requires_grad (λ pg, accumulate pg.2) fst)].
  eapply cells_related_weaken; [apply same_autograd_requires_grad|].
  by related_by (cells_related_foldl (A:=loc * storage) same_autograd
                   (λ w, set_data w.2) fst).
Qed.


Lemma clear_grads_grad_at ps (h : heap) l :
  grad_at (clear_grads ps h) l = if decide (l ∈ ps) then None else grad_at h l.
Proof.
  unfold clear_grads, grad_at. revert h.
  induction ps as [|p ps IH]; intros h.
  - case_decide as Hin; [by apply elem_of_nil in Hin|done].
  - simpl. rewrite IH. rewrite list_lookup_total_alter.
    repeat case_decide; try done; try (exfalso; set_solver).
    destruct (decide (l = p)) as [->|]; [|exfalso; set_solver].
    rewrite list_lookup_total_alt, lookup_ge_None_2; [done|lia].
Qed.


Lemma leaf_grads_requires_grad model (h : heap) x g p d :
  (p, d) ∈ leaf_grads model h x g → requires_grad_at h p = true.
Proof.
  unfold leaf_grads, leaves. intros (q & Hq & Hd)%list_elem_of_omap.
  destruct (net_vjp _ _ _ _ q); simplify_eq/=.
  by apply list_elem_of_In, filter_In in Hq as [_ Hq].
Qed.

Lemma grad_at_eq (h h' : heap) (l : nat) :
  h' !! l = h !! l → grad_at h' l = grad_at h l.
Proof. intros Hl. unfold grad_at. by rewrite !list_lookup_total_alt, Hl. Qed.

Lemma adam_fold_keeps g ps st (h : heap) (l : nat) :
  l < length h → grad_at h l = None → l ∉ state_locs st →
  (adam_fold g ps (st, h)).2 !! l = h !! l.
Proof.
  revert st h. induction ps as [|q ps IH]; intros st h Hlt Hg Hst; [done|].
  change (adam_fold g (q :: ps) (st, h))
    with (adam_fold g ps (adam_update_result g st q h)).
  destruct (decide (q = l)) as [->|Hne].
  { unfold adam_update_result. rewrite Hg. by apply IH. }
  destruct (adam_update_result_frame g st q h) as [[Hlen Hu] Hl].
  destruct (adam_update_result g st q h) as [st1 h1]. cbn [fst snd] in *.
  assert (h1 !! l = h !! l) as Hsame by (apply Hu; [done|naive_solver]).
  rewrite <- Hsame. apply IH; [lia| |].
  - by rewrite (grad_at_eq _ _ _ Hsame).
  - intros [?|?]%Hl; [done|lia].
Qed.

Lemma clear_grads_lookup ps (h : heap) (l : nat) :
  clear_grads ps h !! l =
    if decide (l ∈ ps) then set_grad None <$> h !! l else h !! l.
Proof.
  unfold clear_grads. revert h. induction ps as [|p ps IH]; intros h.
  - case_decide as Hin; [by apply elem_of_nil in Hin|done].
  - simpl. rewrite IH, list_lookup_alter.
    repeat case_decide; subst; try done; try (exfalso; set_solver).
    all: by destruct (h !! l).
Qed.


End adaptation.


(** ** [collect_params] *)

Section collect.
Context `{Torch}.

Lemma remove_duplicate_elem seen (l : list (string * loc)) (p : nat) :
  p ∈ (remove_duplicate seen l).*2 ↔ p ∈ l.*2 ∧ p ∉ seen.
Proof.
  revert seen. induction l as [|[k q] l IH]; intros seen.
  - simpl. split; [by intros ?%elem_of_nil|by intros [?%elem_of_nil _]].
  - cbn [remove_duplicate]. case_decide as Hq.
    + rewrite IH, fmap_cons, elem_of_cons. cbn [snd]. naive_solver.
    + rewrite !fmap_cons, !elem_of_cons, IH, not_elem_of_cons. cbn [snd]. split.
      * intros [->|(? & ? & ?)]; [split; [by left|done]|split; [by right|done]].
      * intros [[->|?] ?]; [by left|].
        destruct (decide (p = q)) as [->|]; [by left|by right].
Qed.

Lemma remove_duplicate_NoDup seen (l : list (string * loc)) :
  NoDup (remove_duplicate seen l).*2.
Proof.
  revert seen. induction l as [|[k q] l IH]; intros seen; [constructor|].
  cbn [remove_duplicate]. case_decide; [apply IH|].
  rewrite fmap_cons. constructor; [|apply IH].
  rewrite remove_duplicate_elem, not_elem_of_cons. naive_solver.
Qed.

Lemma elem_of_members (own : module → list (string * loc))
    (nms : list (string * module)) (p : nat) :
  p ∈ (flat_map (λ pm, prod_map (join pm.1) id <$> own pm.2) nms).*2 ↔
  ∃ m, m ∈ nms.*2 ∧ p ∈ (own m).*2.
Proof.
  induction nms as [|[n m] nms IH].
  - simpl. split; [by intros ?%elem_of_nil|by intros (? & ?%elem_of_nil & _)].
  - cbn [flat_map]. rewrite fmap_app, elem_of_app, IH, fmap_cons. cbn [fst snd].
    rewrite <- list_fmap_compose.
    assert ((snd ∘ prod_map (join n) id <$> own m) = (own m).*2) as ->
      by (by apply list_fmap_ext; intros ? []).
    setoid_rewrite elem_of_cons. naive_solver.
Qed.

Lemma elem_of_parameters model (p : nat) :
  p ∈ parameters model ↔ ∃ m, m ∈ modules model ∧ p ∈ (module_parameters m).*2.
Proof.
  unfold parameters, named_parameters, modules.
  rewrite remove_duplicate_elem, elem_of_members.
  split; [by intros [? _]|]. intros ?. split; [done|apply not_elem_of_nil].
Qed.

Lemma elem_of_norm_parameters model (p : nat) :
  p ∈ norm_parameters model ↔
  ∃ m, m ∈ modules model ∧ isinstance_BatchNorm2d m = true ∧
       p ∈ (module_parameters m).*2.
Proof.
  unfold norm_parameters. rewrite elem_of_flat_map. split.
  - intros (m & Hm & Hp). exists m. destruct (isinstance_BatchNorm2d m) eqn:E;
      [|by apply elem_of_nil in Hp].
    apply elem_of_parameters in Hp as (m' & Hm' & Hp).
    destruct m; [|done]. unfold modules in Hm'. simpl in Hm'.
    apply list_elem_of_singleton in Hm'. by subst.
  - intros (m & Hm & Hbn & Hp). exists m. split; [done|]. rewrite Hbn.
    apply elem_of_parameters. exists m. split; [|done].
    destruct m; [|done]. unfold modules. simpl. by left.
Qed.

(** In full mode ([bn_only = False]) [collect_params] returns every
    parameter registered on some module of the model, each once (a
    parameter shared by several modules is listed at its first
    occurrence only), with as many names as parameters. *)
Theorem collect_params_all (model : module) :
  (collect_params model false).1 = parameters model ∧
  NoDup (collect_params model false).1 ∧
  length (collect_params model false).2 = length (collect_params model false).1 ∧
  (∀ p, p ∈ (collect_params model false).1 ↔
        ∃ m, m ∈ modules model ∧ p ∈ (module_parameters m).*2).
Proof.
  unfold collect_params. cbn [fst snd]. split; [done|]. split; [|split].
  - apply remove_duplicate_NoDup.
  - by rewrite !length_fmap.
  - apply elem_of_parameters.
Qed.

(** In restricted mode ([bn_only = True]) [collect_params] returns the
    tensors that are the [weight] or the [bias] of a [BatchNorm2d]
    module of the model, and nothing else; all of them are among the
    parameters the full mode returns; and there are as many names as
    parameters. *)
Theorem collect_params_bn_only (model : module) :
  (∀ p, p ∈ (collect_params model true).1 ↔
        ∃ tr w b trs rm rv nbt,
          BatchNorm2d tr w b trs rm rv nbt ∈ modules model ∧
          (w = Some p ∨ b = Some p)) ∧
  (∀ p, p ∈ (collect_params model true).1 → p ∈ (collect_params model false).1) ∧
  length (collect_params model true).2 = length (collect_params model true).1.
Proof.
  split; [|split].
  - intros p. rewrite norm_parameters_collect, elem_of_norm_parameters. split.
    + intros (m & Hm & Hbn & Hp).
      destruct m as [tr w b trs rm rv nbt|]; [|done].
      exists tr, w, b, trs, rm, rv, nbt. split; [done|].
      destruct w, b; simpl in Hp; set_solver.
    + intros (tr & w & b & trs & rm & rv & nbt & Hm & Hp).
      eexists. split; [exact Hm|]. split; [done|].
      destruct w, b, Hp; simplify_eq; simpl; set_solver.
  - intros p. rewrite norm_parameters_collect.
    intros (m & Hm & _ & Hp)%elem_of_norm_parameters.
    apply elem_of_parameters. eauto.
  - unfold collect_params. cbn [fst snd]. by rewrite !length_fmap.
Qed.

End collect.

(** ** Deep copies *)

Section copies.
Context `{Torch}.

Lemma data_at_app (h k : heap) (l : nat) : l < length h → data_at (h ++ k) l = data_at h l.
Proof.
  intros Hl. unfold data_at. by rewrite !list_lookup_total_alt, lookup_app_l.
Qed.

Lemma deepcopy_tensor_run (l : loc) (h : heap) :
  deepcopy_tensor l h = Ok (length h, h ++ [fresh_tensor (data_at h l)]).
Proof. done. Qed.

Lemma deepcopy_entries_run {K} (sd : list (K * loc)) (h : heap) :
  ∃ k, deepcopy_entries sd h =
         Ok (zip sd.*1 (seq (length h) (length sd)), h ++ k) ∧
       length k = length sd ∧
       (Forall (λ l, l < length h) sd.*2 →
        k = fresh_tensor ∘ data_at h <$> sd.*2).
Proof.
  unfold deepcopy_entries. revert h.
  induction sd as [|[key l] sd IH]; intros h.
  { exists []. simpl. unfold ret. by rewrite app_nil_r. }
  cbn [mapM]. unfold bind at 1. unfold bind at 1. rewrite deepcopy_tensor_run.
  unfold ret at 1. unfold bind at 1. cbn [fst snd].
  destruct (IH (h ++ [fresh_tensor (data_at h l)])) as (k & -> & Hlen & Hk).
  exists (fresh_tensor (data_at h l) :: k). split; [|split].
  - unfold ret. rewrite length_app. cbn [length fst snd fmap list_fmap seq zip zip_with].
    replace (length h + 1) with (S (length h)) by lia.
    by rewrite <- app_assoc.
  - simpl. lia.
  - intros Hv. rewrite fmap_cons in Hv. apply Forall_cons in Hv as [Hl Hsd].
    rewrite !fmap_cons. cbn [snd compose]. f_equal.
    rewrite Hk.
    + apply list_fmap_ext. intros i l' Hl'. cbn [compose]. f_equal.
      apply data_at_app. eapply (Forall_lookup_1 _ _ _ _ Hsd), Hl'.
    + eapply Forall_impl; [exact Hsd|]. intros l' Hl'. simpl in Hl'.
      rewrite length_app. simpl. lia.
Qed.

Lemma flat_map_ext_elem {A B} (f g : A → list B) (l : list A) :
  (∀ a, a ∈ l → f a = g a) → flat_map f l = flat_map g l.
Proof.
  induction l as [|a l IH]; intros Hfg; [done|]. simpl.
  rewrite Hfg by by left. rewrite IH; [done|]. intros b Hb. apply Hfg. by right.
Qed.

Lemma deepcopy_states_run (sd : list (nat * adam_state)) (h : heap) :
  ∃ k, deepcopy_states sd h = Ok (copied_states (length h) sd, h ++ k) ∧
       length k = 2 * length sd ∧
       (Forall (λ l, l < length h) (state_locs sd) → k = copied_cells h sd).
Proof.
  unfold deepcopy_states. revert h.
  induction sd as [|[key s] sd IH]; intros h.
  { exists []. simpl. unfold ret. by rewrite app_nil_r. }
  cbn [mapM]. unfold bind at 1. unfold deepcopy_adam_state at 1.
  unfold bind at 1. unfold bind at 1. rewrite deepcopy_tensor_run.
  unfold bind at 1. rewrite deepcopy_tensor_run. unfold ret at 1. unfold ret at 1.
  unfold bind at 1.
  cbn [fst snd].
  set (c1 := fresh_tensor (data_at h (exp_avg s))).
  set (c2 := fresh_tensor (data_at (h ++ [c1]) (exp_avg_sq s))).
  destruct (IH ((h ++ [c1]) ++ [c2])) as (k & -> & Hlen & Hk).
  exists (c1 :: c2 :: k). split; [|split].
  - unfold ret. rewrite !length_app. cbn [length copied_states fst snd step].
    replace (length h + 1) with (S (length h)) by lia.
    replace (S (length h) + 1) with (S (S (length h))) by lia.
    by rewrite <- !app_assoc.
  - simpl. lia.
  - unfold state_locs. cbn [flat_map snd app].
    intros Hv. apply Forall_cons in Hv as [Hm Hv]. apply Forall_cons in Hv as [Hv Hsd].
    unfold copied_cells. cbn [flat_map snd app]. fold c1. f_equal.
    subst c2. rewrite data_at_app by done. f_equal.
    rewrite Hk.
    + unfold copied_cells. apply flat_map_ext_elem.
      intros [key' s'] Hin.
      assert (exp_avg s' < length h ∧ exp_avg_sq s' < length h) as [??].
      { rewrite Forall_forall in Hsd. split; apply Hsd, elem_of_flat_map;
          exists (key', s'); (split; [done|]); simpl; set_solver. }
      cbn [snd]. rewrite <- !app_assoc. by rewrite !data_at_app.
    + eapply Forall_impl; [exact Hsd|]. intros l' Hl'. simpl in Hl'.
      rewrite !length_app. simpl. lia.
Qed.
Lemma state_locs_copied (n : nat) (sd : list (nat * adam_state)) :
  state_locs (copied_states n sd) = seq n (2 * length sd).
Proof.
  revert n. induction sd as [|[k s] sd IH]; intros n; [done|].
  unfold state_locs in *. cbn [copied_states flat_map snd exp_avg exp_avg_sq app].
  rewrite IH. cbn [length]. replace (2 * S (length sd)) with (S (S (2 * length sd))) by lia.
  done.
Qed.

Lemma zip_fst_seq {A} (l : list A) (n m : nat) :
  length l = m → (zip l (seq n m)).*1 = l.
Proof. intros. apply fst_zip. rewrite length_seq. lia. Qed.


Lemma copy_model_and_optimizer_run model o (h : heap) :
  ∃ k1 k2,
    let sd := state_dict "" model in
    let packed := sd_state (optimizer_state_dict_of o) in
    copy_model_and_optimizer model o h =
      Ok ((zip sd.*1 (seq (length h) (length sd)),
           OptimizerStateDict (copied_states (length h + length sd) packed)
             (group o) (sd_params (optimizer_state_dict_of o))),
          h ++ k1 ++ k2) ∧
    length k1 = length sd ∧ length k2 = 2 * length packed ∧
    (Forall (λ l, l < length h) sd.*2 → k1 = fresh_tensor ∘ data_at h <$> sd.*2) ∧
    (Forall (λ l, l < length h) (state_locs packed) → k2 = copied_cells h packed).
Proof.
  destruct (deepcopy_entries_run (state_dict "" model) h) as (k1 & Hc1 & Hl1 & Hk1).
  destruct (deepcopy_states_run (sd_state (optimizer_state_dict_of o)) (h ++ k1))
    as (k2 & Hc2 & Hl2 & Hk2).
  exists k1, k2. cbn zeta. split; [|split; [done|split; [done|split; [done|]]]].
  - unfold copy_model_and_optimizer, bind. rewrite Hc1.
    unfold deepcopy_optimizer_state_dict, bind. rewrite Hc2. unfold ret.
    rewrite length_app, Hl1. by rewrite <- app_assoc.
  - intros Hv. rewrite Hk2.
    + unfold copied_cells. apply flat_map_ext_elem. intros [i s] Hin.
      assert (exp_avg s < length h ∧ exp_avg_sq s < length h) as [??].
      { rewrite Forall_forall in Hv. split; apply Hv, elem_of_flat_map;
          exists (i, s); (split; [done|]); simpl; set_solver. }
      cbn [snd]. by rewrite !data_at_app.
    + eapply Forall_impl; [exact Hv|]. intros l' Hl'. simpl in Hl'.
      rewrite length_app. lia.
Qed.


End copies.

(** ** The wrapper never fails once constructed *)

Section wrapper_total.
Context `{Torch}.

Lemma forM_run {A} (l : list A) (body : A → M unit) (f : A → heap → heap) (h : heap) :
  (∀ a h, body a h = Ok (tt, f a h)) →
  forM_ l body h = Ok (tt, foldl (λ h a, f a h) h l).
Proof.
  intros Hb. revert h. induction l as [|a l IH]; intros h; [done|].
  simpl. unfold bind. by rewrite Hb, IH.
Qed.

Lemma for_range_invariant {A} (P : A → heap → Prop) (body : A → M A) (n : nat) :
  (∀ a h, P a h → ∃ a' h', body a h = Ok (a', h') ∧ P a' h') →
  ∀ a h, P a h → ∃ a' h', for_range n body a h = Ok (a', h') ∧ P a' h'.
Proof.
  intros Hb. induction n as [|n IH]; intros a h HP; [by exists a, h|].
  simpl. unfold bind. destruct (Hb a h HP) as (a1 & h1 & -> & HP1).
  by apply IH.
Qed.

Lemma foldM_invariant {A B} (P : B → heap → Prop) (f : B → A → M B) (l : list A) :
  (∀ a b h, P b h → ∃ b' h', f b a h = Ok (b', h') ∧ P b' h') →
  ∀ b h, P b h → ∃ b' h', foldM f b l h = Ok (b', h') ∧ P b' h'.
Proof.
  intros Hf. induction l as [|a l IH]; intros b h HP; [by exists b, h|].
  simpl. unfold bind. destruct (Hf a b h HP) as (b1 & h1 & -> & HP1).
  by apply IH.
Qed.

Lemma assoc_None {K V} `{EqDecision K} (k : K) (l : list (K * V)) :
  assoc k l = None ↔ k ∉ l.*1.
Proof.
  induction l as [|[k' v] l IH]; simpl.
  - split; [intros _; apply not_elem_of_nil|done].
  - rewrite not_elem_of_cons. case_decide; [naive_solver|]. rewrite IH. naive_solver.
Qed.

Lemma filter_nil_forall {A} (f : A → bool) (l : list A) :
  (∀ a, a ∈ l → f a = false) → List.filter f l = [].
Proof.
  induction l as [|a l IH]; intros Hf; [done|]. simpl.
  rewrite Hf by by left. apply IH. intros b Hb. apply Hf. by right.
Qed.

Lemma load_state_dict_run model sd (h : heap) :
  sd.*1 = (state_dict "" model).*1 →
  load_state_dict model sd h = Ok (tt, loaded model sd h).
Proof.
  intros Hkeys. unfold load_state_dict, bind.
  rewrite (forM_run _ _ (load_entry sd)).
  - rewrite decide_True; [done|]. split; apply filter_nil_forall.
    + intros k Hk. apply bool_decide_eq_false. rewrite assoc_None. rewrite Hkeys. tauto.
    + intros k Hk. apply bool_decide_eq_false. rewrite <- Hkeys. tauto.
  - intros kl h'. unfold load_entry. by destruct (assoc kl.1 sd).
Qed.

Lemma index_of_Some p ps :
  p ∈ ps → ∃ i, index_of p ps = Some i ∧ ps !! i = Some p.
Proof.
  induction ps as [|q ps IH]; [by intros ?%elem_of_nil|].
  simpl. case_decide as Hpq; [subst; by exists 0|].
  intros [?|Hin]%elem_of_cons; [done|].
  destruct (IH Hin) as (i & -> & Hi). by exists (S i).
Qed.

Lemma length_packed_params ps qs :
  (∀ p, p ∈ ps → p ∈ qs) → length (omap (λ p, index_of p qs) ps) = length ps.
Proof.
  induction ps as [|p ps IH]; intros Hsub; [done|]. simpl.
  destruct (index_of_Some p qs) as (i & -> & _); [apply Hsub; by left|].
  simpl. f_equal. apply IH. intros q Hq. apply Hsub. by right.
Qed.

Lemma optimizer_load_state_dict_run o sd (h : heap) :
  length (sd_params sd) = length (params o) →
  ∃ k,
    optimizer_load_state_dict o sd h =
      Ok (Adam (params o) (sd_group sd)
            (omap (λ ks, (λ p, (p, ks.2)) <$> assoc ks.1 (zip (sd_params sd) (params o)))
               (copied_states (length h) (sd_state sd))),
          h ++ k) ∧
    length k = 2 * length (sd_state sd) ∧
    (Forall (λ l, l < length h) (state_locs (sd_state sd)) →
     k = copied_cells h (sd_state sd)).
Proof.
  intros Hlen. destruct (deepcopy_states_run (sd_state sd) h) as (k & Hc & Hl & Hk).
  exists k. split; [|done].
  unfold optimizer_load_state_dict, bind, deepcopy_optimizer_state_dict, bind.
  rewrite Hc. unfold ret. cbn [sd_params sd_group sd_state].
  by rewrite decide_True.
Qed.

Lemma BNM_init_run model o (steps : Z) episodic (h : heap) :
  (steps > 0)%Z →
  ∃ ms os h',
    copy_model_and_optimizer model o h = Ok ((ms, os), h') ∧
    BNM_init model o steps episodic h =
      Ok (Bnm model o steps episodic (Some ms) (Some os), h').
Proof.
  intros Hs. destruct (copy_model_and_optimizer_run model o h)
    as (k1 & k2 & Hrun & _). cbn zeta in Hrun.
  eexists _, _, _. split; [exact Hrun|].
  unfold BNM_init, bind, assert. rewrite bool_decide_eq_true_2 by done.
  unfold ret at 1. by rewrite Hrun.
Qed.

Lemma BNM_init_inv model o (steps : Z) episodic (h : heap) w h1 :
  BNM_init model o steps episodic h = Ok (w, h1) →
  (steps > 0)%Z ∧
  ∃ ms os, copy_model_and_optimizer model o h = Ok ((ms, os), h1) ∧
           w = Bnm model o steps episodic (Some ms) (Some os).
Proof.
  intros Hinit. destruct (decide (steps > 0)%Z) as [Hs|Hs].
  - split; [done|]. destruct (BNM_init_run model o steps episodic h Hs)
      as (ms & os & h' & Hc & Hi). rewrite Hi in Hinit. injection Hinit as <- <-.
    by exists ms, os.
  - unfold BNM_init, bind, assert in Hinit.
    by rewrite bool_decide_eq_false_2 in Hinit by done.
Qed.







End wrapper_total.

(** ** [setup_bnm] and the checker on a configured model *)

Section setup.
Context `{Torch}.


Lemma any_true {A} (f : A → bool) (l : list A) :
  any (f <$> l) = true ↔ ∃ a, a ∈ l ∧ f a = true.
Proof.
  unfold any. induction l as [|a l IH]; simpl.
  - split; [done|]. by intros (a & ?%elem_of_nil & _).
  - rewrite orb_true_iff, IH. unfold id. setoid_rewrite elem_of_cons. naive_solver.
Qed.

Lemma all_false {A} (f : A → bool) (l : list A) :
  all (f <$> l) = false ↔ ∃ a, a ∈ l ∧ f a = false.
Proof.
  unfold all. induction l as [|a l IH]; simpl.
  - split; [done|]. by intros (a & ?%elem_of_nil & _).
  - rewrite andb_false_iff, IH. unfold id. setoid_rewrite elem_of_cons. naive_solver.
Qed.

Lemma check_model_ok model (h : heap) :
  check_model model h = Ok (tt, h) ↔
  training model = true ∧
  any (requires_grad_at h <$> parameters model) = true ∧
  all (requires_grad_at h <$> parameters model) = false ∧
  any (isinstance_BatchNorm2d <$> modules model) = true.
Proof.
  unfold check_model, bind, assert, get_heap, ret, raise.
  destruct (training model); [|naive_solver].
  destruct (any (requires_grad_at h <$> parameters model)); [|naive_solver].
  destruct (all (requires_grad_at h <$> parameters model)); simpl; [naive_solver|].
  destruct (any (isinstance_BatchNorm2d <$> modules model)); naive_solver.
Qed.

Lemma training_configured m : training (map_nodes use_batch_stats (train true m)) = true.
Proof. by destruct m. Qed.

(** After [configure_model], [check_model] accepts the model exactly
    when some [BatchNorm2d] layer has a scale or shift parameter and
    some parameter of the model is not one of those: a model without
    affine batch-norm layers, or one made of batch-norm parameters
    only, is configured without complaint and rejected by the
    checker. *)
Theorem check_model_after_configure (m : module) (h : heap) (m' : module)
    (h' : heap) :
  Forall (λ p, p < length h) (parameters m) →
  configure_model m h = Ok (m', h') →
  (check_model m' h' = Ok (tt, h') ↔
   (∃ p, p ∈ (collect_params m true).1) ∧
   (∃ p, p ∈ (collect_params m false).1 ∧ p ∉ (collect_params m true).1)).
Proof.
  intros Hv. rewrite configure_model_run. intros [= <- <-].
  rewrite norm_parameters_collect.
  change (collect_params m false).1 with (parameters m).
  rewrite check_model_ok, training_configured, any_true, all_false, any_true.
  rewrite parameters_map_nodes by apply attribute_update_batch_stats.
  rewrite parameters_train.
  assert (∀ p, p ∈ norm_parameters m → p ∈ parameters m) as Hsub.
  { intros p (md & ? & _ & ?)%elem_of_norm_parameters. apply elem_of_parameters. eauto. }
  assert (∀ p, p ∈ parameters m →
            requires_grad_at (set_all true (norm_parameters m)
                                (set_all false (parameters m) h)) p
            = bool_decide (p ∈ norm_parameters m)) as Hrg.
  { intros p Hp. rewrite Forall_forall in Hv.
    rewrite set_all_requires_grad by (rewrite set_all_length; by apply Hv).
    rewrite set_all_requires_grad by by apply Hv.
    rewrite (decide_True _ _ Hp). by case_decide; case_bool_decide. }
  split.
  - intros (_ & (p & Hp & Hpt) & (q & Hq & Hqf) & _).
    rewrite Hrg in Hpt, Hqf by done.
    apply bool_decide_eq_true in Hpt. apply bool_decide_eq_false in Hqf. eauto.
  - intros [[p Hp] (q & Hq & Hqn)]. split; [done|]. split; [|split].
    + exists p. split; [by apply Hsub|]. rewrite Hrg by by apply Hsub.
      by apply bool_decide_eq_true.
    + exists q. split; [done|]. rewrite Hrg by done. by apply bool_decide_eq_false.
    + apply elem_of_norm_parameters in Hp as (md & Hmd & Hbn & _).
      exists (map_nodes use_batch_stats (map_nodes (set_training true) md)). split.
      * rewrite train_map_nodes.
        rewrite !modules_map_nodes
          by auto using attribute_update_batch_stats, attribute_update_training.
        by do 2 apply list_elem_of_fmap_2.
      * rewrite !isinstance_map_nodes
          by auto using attribute_update_batch_stats, attribute_update_training.
        done.
Qed.

End setup.

(** ** Snapshots survive adaptation *)

Section snapshots.
Context `{Torch}.

Lemma modules_prefix prefix prefix' m :
  (named_modules prefix m).*2 = (named_modules prefix' m).*2.
Proof.
  revert prefix prefix'.
  induction m as [|tr ps bs cs IH] using module_tree_ind; intros prefix prefix';
    [done|].
  simpl. f_equal. induction IH as [|nc r Hnc _ IHr]; [done|].
  simpl. rewrite !fmap_app. f_equal; [apply Hnc|apply IHr].
Qed.

Lemma elem_of_state_dict prefix m (l : nat) :
  l ∈ (state_dict prefix m).*2 ↔
  ∃ md, md ∈ modules m ∧
        (l ∈ (module_parameters md).*2 ∨ l ∈ (module_buffers md).*2).
Proof.
  unfold modules. generalize "" as prefix'. revert prefix.
  induction m as [tr w b trs rm rv nbt|tr ps bs cs IH] using module_tree_ind;
    intros prefix prefix'.
  - cbn [state_dict named_modules]. rewrite app_nil_r, <- list_fmap_compose.
    assert (snd ∘ prod_map (String.append prefix) id = (snd : string * loc → loc))
      as -> by done.
    rewrite fmap_app, elem_of_app. setoid_rewrite list_elem_of_singleton.
    naive_solver.
  - cbn [state_dict named_modules]. rewrite fmap_app, elem_of_app, <- list_fmap_compose.
    assert (snd ∘ prod_map (String.append prefix) id = (snd : string * loc → loc))
      as -> by done.
    rewrite fmap_app, elem_of_app, fmap_cons. setoid_rewrite elem_of_cons.
    cbn [snd module_parameters module_buffers].
    assert (l ∈ (flat_map (λ nc, state_dict (prefix +:+ nc.1 +:+ ".") nc.2) cs).*2 ↔
            ∃ md, md ∈ (flat_map (λ nc, named_modules (join prefix' nc.1) nc.2) cs).*2 ∧
                  (l ∈ (module_parameters md).*2 ∨ l ∈ (module_buffers md).*2)) as ->.
    { induction IH as [|nc r Hnc _ IHr].
      - simpl. split; [by intros ?%elem_of_nil|by intros (? & ?%elem_of_nil & _)].
      - cbn [flat_map]. rewrite !fmap_app. setoid_rewrite elem_of_app.
        rewrite IHr, (Hnc _ (join prefix' nc.1)). naive_solver. }
    split.
    + intros [[?|?]|(md & ? & ?)]; [eexists; split; [by left|]; simpl; auto..|].
      exists md. split; [by right|done].
    + intros (md & [->|?] & Hl); [simpl in Hl; tauto|]. right. eauto.
Qed.

Lemma elem_of_buffers model (b : nat) :
  b ∈ buffers model ↔ ∃ m, m ∈ modules model ∧ b ∈ (module_buffers m).*2.
Proof.
  unfold buffers, named_buffers, modules.
  rewrite remove_duplicate_elem, elem_of_members.
  split; [by intros [? _]|]. intros ?. split; [done|apply not_elem_of_nil].
Qed.

Lemma footprint_in_state_dict model o (l : nat) :
  adapt_footprint model o l →
  l ∈ (state_dict "" model).*2 ∨ l ∈ params o ∨ l ∈ state_locs (state o).
Proof.
  intros [(md & ? & ?)%elem_of_buffers|[(md & ? & ?)%elem_of_parameters|[?|?]]]; auto;
    left; apply elem_of_state_dict; eauto.
Qed.

Lemma adapt_step_invariant w0 n0 (h1 : heap) x w (h : heap) :
  Forall (λ l, l < n0) (state_dict "" (model w0)).*2 →
  Forall (λ l, l < n0) (params (optimizer_ w0)) →
  wrapper_invariant w0 n0 h1 w h →
  ∃ w' h', adapt_step x w h = Ok (w', h') ∧ wrapper_invariant w0 n0 h1 w' h' ∧
           steps w' = steps w.
Proof.
  intros Hsd Hps (Hd & Hp & Hms & Hos & Hep & [Hlen Hsnap] & Hst).
  unfold state_apart in *. rewrite Forall_forall in Hsd, Hps, Hst.
  unfold adapt_step, bind. rewrite forward_and_adapt_run. unfold ret.
  eexists _, _. split; [done|]. split; [|done].
  destruct (adapted_frame x (model w) (optimizer_ w) h) as [[Hlen' Hu] Hl].
  unfold wrapper_invariant, state_apart.
  cbn [model optimizer_ model_state optimizer_state episodic fst snd].
  unfold adapted at 1 2. cbn [fst snd params]. rewrite state_dict_train.
  do 5 (split; [done|]). split; [split; [lia|]|].
  - intros l Hl'. rewrite Hu; [by apply Hsnap|lia|].
    intros [Hin|[Hin|Hin]]%footprint_in_state_dict.
    + rewrite Hd in Hin. apply Hsd in Hin. lia.
    + rewrite Hp in Hin. apply Hps in Hin. lia.
    + apply Hst in Hin. lia.
  - apply Forall_forall. intros l [Hin|Hin]%Hl.
    + apply Hst in Hin. lia.
    + lia.
Qed.

Lemma forward_only_invariant w0 n0 (h1 : heap) x w (h : heap) :
  Forall (λ l, l < n0) (state_dict "" (model w0)).*2 →
  wrapper_invariant w0 n0 h1 w h →
  ∃ r h', forward_only x (model w) h = Ok (r, h') ∧
          wrapper_invariant w0 n0 h1
            (Bnm r.2 (optimizer_ w) (steps w) (episodic w) (model_state w)
               (optimizer_state w)) h'.
Proof.
  intros Hsd (Hd & Hp & Hms & Hos & Hep & [Hlen Hsnap] & Hst).
  unfold state_apart in *. rewrite Forall_forall in Hsd, Hst.
  rewrite forward_only_run. eexists _, _. split; [done|].
  unfold wrapper_invariant, state_apart.
  cbn [model optimizer_ model_state optimizer_state episodic fst snd].
  unfold eval. rewrite state_dict_train, buffers_train.
  do 5 (split; [done|]). split; [split|].
  - by rewrite write_all_length.
  - intros l Hl. rewrite <- Hsnap by done. apply foldl_alter_lookup_outside.
    intros ([b d] & Hb & Hw)%list_elem_of_fmap. cbn [fst] in Hb. subst b.
    apply elem_of_zip_l in Hw. apply elem_of_buffers in Hw as (md & ? & ?).
    assert (l ∈ (state_dict "" (model w)).*2) as Hin
      by (apply elem_of_state_dict; eauto).
    rewrite Hd in Hin. apply Hsd in Hin. lia.
  - apply Forall_forall. intros l Hin%Hst. rewrite write_all_length. lia.
Qed.

Lemma assoc_zip_lookup {K V} `{EqDecision K} (ks : list K) (vs : list V) i k :
  NoDup ks → ks !! i = Some k → length vs = length ks →
  assoc k (zip ks vs) = vs !! i.
Proof.
  revert vs i. induction ks as [|k0 ks IH]; intros vs i Hnd Hi Hlen; [done|].
  destruct vs as [|v0 vs]; [done|]. apply NoDup_cons in Hnd as [Hk0 Hnd].
  cbn [zip zip_with assoc]. destruct i as [|i]; simpl in Hi.
  - injection Hi as ->. by rewrite decide_True.
  - rewrite decide_False.
    + change ((v0 :: vs) !! S i) with (vs !! i).
      apply IH; [done|done|]. simpl in Hlen. lia.
    + intros ->. apply Hk0, list_elem_of_lookup. eauto.
Qed.

Lemma foldl_ext_invariant {A} (I : heap → Prop) (f g : heap → A → heap)
    (es : list A) (h : heap) :
  (∀ h e, I h → e ∈ es → f h e = g h e) →
  (∀ h e, I h → e ∈ es → I (g h e)) →
  I h → foldl f h es = foldl g h es ∧ I (foldl g h es).
Proof.
  revert h. induction es as [|e es IH]; intros h Hfg Hg HI; [done|].
  simpl. rewrite Hfg by (done || by left).
  apply IH; [| |apply Hg; [done|by left]].
  - intros h' e' ? ?. apply Hfg; [done|by right].
  - intros h' e' ? ?. apply Hg; [done|by right].
Qed.

Lemma data_at_alter_ne f (h : heap) (l l' : nat) :
  l ≠ l' → data_at (alter f l h) l' = data_at h l'.
Proof. intros. unfold data_at. by rewrite list_lookup_total_alter_ne. Qed.

Lemma data_at_set_data d (h : heap) (l : nat) :
  l < length h → data_at (alter (set_data d) l h) l = d.
Proof. intros. unfold data_at. by rewrite list_lookup_total_alter_eq. Qed.

Lemma data_at_eq (h h' : heap) (l : nat) : h' !! l = h !! l → data_at h' l = data_at h l.
Proof. intros Hl. unfold data_at. by rewrite !list_lookup_total_alt, Hl. Qed.

Lemma restore_data (D : loc → storage) (es : list (string * loc)) (h : heap) (l : nat) :
  l ∈ es.*2 → l < length h →
  data_at (foldl (λ h e, alter (set_data (D e.2)) e.2 h) h es) l = D l.
Proof.
  revert h. induction es as [|[k l0] es IH]; intros h Hin Hlt;
    [by apply elem_of_nil in Hin|].
  cbn [foldl snd]. destruct (decide (l ∈ es.*2)) as [Hes|Hes].
  - apply IH; [done|by rewrite length_alter].
  - rewrite fmap_cons in Hin. apply elem_of_cons in Hin as [->|?]; [|done].
    cbn [snd]. erewrite data_at_eq.
    + by apply data_at_set_data.
    + by apply (foldl_alter_lookup_outside (λ e : string * loc, set_data (D e.2)) snd).
Qed.

Lemma load_entry_alter sd kl (h : heap) :
  ∃ f, (∀ t, same_autograd t (f t)) ∧ load_entry sd kl h = alter f kl.2 h.
Proof.
  unfold load_entry. destruct (assoc kl.1 sd) as [src|].
  - exists (set_data (data_at h src)). by split.
  - exists id. split; [done|]. symmetry. apply list_eq. intros i.
    rewrite list_lookup_alter. case_decide; subst; [by rewrite option_fmap_id|done].
Qed.

Lemma loaded_frame model sd (h : heap) :
  length (loaded model sd h) = length h ∧
  (∀ l : nat, l ∉ (state_dict "" model).*2 → loaded model sd h !! l = h !! l) ∧
  cells_related same_autograd h (loaded model sd h).
Proof.
  unfold loaded. revert h.
  induction (state_dict "" model) as [|kl es IH]; intros h.
  { split; [done|]. split; [done|]. by related_by cells_related_refl. }
  cbn [foldl]. destruct (load_entry_alter sd kl h) as (f & Hf & ->).
  destruct (IH (alter f kl.2 h)) as (Hlen & Hout & Hrel).
  rewrite length_alter in Hlen. split; [done|]. split.
  - intros l Hl. rewrite fmap_cons, not_elem_of_cons in Hl. destruct Hl as [Hne Hl].
    rewrite Hout by done. by apply list_lookup_alter_ne.
  - eapply cells_related_trans; [apply _| |exact Hrel].
    by related_by cells_related_alter.
Qed.

Lemma loaded_restores model (h0 h : heap) n0 :
  let sd := state_dict "" model in
  NoDup sd.*1 →
  Forall (λ l, l < n0) sd.*2 →
  n0 ≤ length h →
  (∀ i l, sd.*2 !! i = Some l → data_at h (n0 + i) = data_at h0 l) →
  ∀ l : nat, l ∈ sd.*2 →
    data_at (loaded model (zip sd.*1 (seq n0 (length sd))) h) l = data_at h0 l.
Proof.
  intros sd Hnd Hv Hlen Hsnap l Hl. unfold loaded. fold sd.
  set (ms := zip sd.*1 (seq n0 (length sd))).
  rewrite Forall_forall in Hv.
  destruct (foldl_ext_invariant
              (λ hc : heap, length hc = length h ∧
                 ∀ i l, sd.*2 !! i = Some l → data_at hc (n0 + i) = data_at h0 l)
              (λ hc kl, load_entry ms kl hc)
              (λ hc e, alter (set_data (data_at h0 e.2)) e.2 hc) sd h) as [-> _].
  - intros hc [k l'] [_ HI] Hin. apply list_elem_of_lookup in Hin as [i Hi].
    unfold load_entry. cbn [fst snd]. subst ms.
    rewrite (assoc_zip_lookup _ _ i) by
      (done || (by rewrite list_lookup_fmap, Hi) || by rewrite length_seq, length_fmap).
    rewrite lookup_seq_lt by (apply lookup_lt_Some in Hi; done).
    rewrite (HI i l') by by rewrite list_lookup_fmap, Hi. done.
  - intros hc [k l'] [HIl HI] Hin. split; [by rewrite length_alter|].
    intros i l'' Hi. rewrite data_at_alter_ne; [by apply HI|].
    cbn [snd]. assert (l' < n0); [|lia].
    apply Hv, list_elem_of_fmap. by exists (k, l').
  - done.
  - apply restore_data; [done|]. apply Hv in Hl. lia.
Qed.

Lemma value_of_eq (h h' : heap) s :
  h' !! exp_avg s = h !! exp_avg s → h' !! exp_avg_sq s = h !! exp_avg_sq s →
  value_of h' s = value_of h s.
Proof.
  intros H1 H2. unfold value_of.
  by rewrite (data_at_eq _ _ (exp_avg s) H1), (data_at_eq _ _ (exp_avg_sq s) H2).
Qed.

Lemma values_ext (sd : list (nat * adam_state)) (h h' : heap) :
  (∀ l : nat, l ∈ state_locs sd → h' !! l = h !! l) →
  prod_map id (value_of h') <$> sd = prod_map id (value_of h) <$> sd.
Proof.
  intros Hl. apply list_fmap_ext. intros i [k s] Hi. unfold prod_map. cbn [fst snd].
  f_equal. apply value_of_eq; apply Hl, elem_of_flat_map; exists (k, s);
    (split; [by eapply list_elem_of_lookup_2|]); simpl; set_solver.
Qed.

Lemma copied_cells_ext (sd : list (nat * adam_state)) (h h' : heap) :
  (∀ l : nat, l ∈ state_locs sd → h' !! l = h !! l) →
  copied_cells h' sd = copied_cells h sd.
Proof.
  intros Hl. unfold copied_cells. apply flat_map_ext_elem. intros [k s] Hin.
  cbn [snd]. rewrite (data_at_eq h h' (exp_avg s)), (data_at_eq h h' (exp_avg_sq s));
    [done|..]; apply Hl, elem_of_flat_map; exists (k, s); (split; [done|]);
    simpl; set_solver.
Qed.

Lemma copied_values (sd : list (nat * adam_state)) (h rest : heap) :
  Forall (λ l, l < length h) (state_locs sd) →
  prod_map id (value_of (h ++ copied_cells h sd ++ rest))
    <$> copied_states (length h) sd
  = prod_map id (value_of h) <$> sd.
Proof.
  revert h rest. induction sd as [|[k s] sd IH]; intros h rest Hv; [done|].
  unfold state_locs in Hv. cbn [flat_map snd app] in Hv.
  apply Forall_cons in Hv as [Hm Hv]. apply Forall_cons in Hv as [Hq Hv].
  fold (state_locs sd) in Hv.
  cbn [copied_states copied_cells flat_map fst snd app].
  fold (copied_cells h sd).
  set (c1 := fresh_tensor (data_at h (exp_avg s))).
  set (c2 := fresh_tensor (data_at h (exp_avg_sq s))).
  rewrite !fmap_cons. f_equal.
  - unfold prod_map, value_of. cbn [fst snd step exp_avg exp_avg_sq]. do 2 f_equal.
    + f_equal. unfold data_at. rewrite list_lookup_total_alt, lookup_app_r by lia.
      by replace (length h - length h) with 0 by lia.
    + unfold data_at. rewrite list_lookup_total_alt, lookup_app_r by lia.
      by replace (S (length h) - length h) with 1 by lia.
  - assert (∀ l : nat, l ∈ state_locs sd → (h ++ [c1; c2]) !! l = h !! l) as Hext.
    { intros l Hl. rewrite Forall_forall in Hv. apply lookup_app_l. by apply Hv. }
    specialize (IH (h ++ [c1; c2]) rest).
    rewrite length_app in IH. cbn [length] in IH.
    replace (length h + 2) with (S (S (length h))) in IH by lia.
    rewrite (copied_cells_ext sd h (h ++ [c1; c2]) Hext) in IH.
    rewrite <- !app_assoc in IH. cbn [app] in IH. rewrite IH.
    + by apply values_ext.
    + eapply Forall_impl; [exact Hv|]. intros l Hl. simpl in Hl. lia.
Qed.

Lemma assoc_fmap {K V W} `{EqDecision K} (f : V → W) (k : K) (l : list (K * V)) :
  assoc k (prod_map id f <$> l) = f <$> assoc k l.
Proof.
  induction l as [|[k' v] l IH]; [done|]. rewrite fmap_cons. cbn [assoc prod_map fst snd id].
  by case_decide.
Qed.

Lemma pack_state_fmap {V W} (f : V → W) ps (st : list (loc * V)) :
  prod_map id f <$> pack_state ps st = pack_state ps (prod_map id f <$> st).
Proof.
  unfold pack_state. induction st as [|[p v] st IH]; [done|].
  rewrite fmap_cons. cbn [omap list_omap prod_map fst snd id].
  destruct (index_of p ps); cbn [fmap option_fmap option_map]; [|exact IH].
  rewrite fmap_cons. f_equal. exact IH.
Qed.

Lemma unpack_state_fmap {V W} (f : V → W) idxs ps (sd : list (nat * V)) :
  prod_map id f <$> unpack_state idxs ps sd
  = unpack_state idxs ps (prod_map id f <$> sd).
Proof.
  unfold unpack_state. induction sd as [|[i v] sd IH]; [done|].
  rewrite fmap_cons. cbn [omap list_omap prod_map fst snd id].
  destruct (assoc i (zip idxs ps)); cbn [fmap option_fmap option_map]; [|exact IH].
  rewrite fmap_cons. f_equal. exact IH.
Qed.

Lemma index_of_lookup p ps i : index_of p ps = Some i → ps !! i = Some p.
Proof.
  revert i. induction ps as [|q ps IH]; intros i; [done|]. simpl. case_decide.
  - intros [= <-]. by subst.
  - destruct (index_of p ps); [|done]. intros [= <-]. by apply IH.
Qed.

Lemma index_of_first p q ps i :
  index_of p ps = Some i → index_of q ps = Some i → p = q.
Proof.
  intros Hp%index_of_lookup Hq%index_of_lookup. congruence.
Qed.

Lemma assoc_packed_params qs ps p i :
  p ∈ ps → (∀ q, q ∈ ps → q ∈ qs) → index_of p qs = Some i →
  assoc i (zip (omap (λ p, index_of p qs) ps) ps) = Some p.
Proof.
  intros Hin Hsub Hi. induction ps as [|q ps IH]; [by apply elem_of_nil in Hin|].
  destruct (index_of_Some q qs) as (j & Hj & _); [apply Hsub; by left|].
  cbn [omap list_omap]. rewrite Hj. cbn [zip zip_with assoc].
  case_decide as Hij.
  - subst j. f_equal. by apply (index_of_first q p qs i).
  - apply IH.
    + apply elem_of_cons in Hin as [->|?]; [|done]. congruence.
    + intros q' ?. apply Hsub. by right.
Qed.

Lemma unpack_pack_state {V} ps (st : list (loc * V)) (p : loc) :
  p ∈ ps →
  assoc p (unpack_state (omap (λ p, index_of p ps) ps) ps (pack_state ps st))
  = assoc p st.
Proof.
  intros Hp. unfold unpack_state, pack_state.
  induction st as [|[q v] st IH]; [done|].
  cbn [omap list_omap fst snd assoc].
  destruct (index_of q ps) as [i|] eqn:Hq; cbn [fmap option_fmap option_map].
  - cbn [omap list_omap fst snd].
    rewrite (assoc_packed_params ps ps q i); [| |done|done].
    + cbn [fmap option_fmap option_map assoc]. case_decide; [done|apply IH].
    + apply index_of_lookup in Hq. by eapply list_elem_of_lookup_2.
  - rewrite decide_False; [apply IH|]. intros ->.
    destruct (index_of_Some q ps Hp) as (i & Hi & _). congruence.
Qed.

Lemma state_locs_pack ps (st : list (loc * adam_state)) (l : nat) :
  l ∈ state_locs (pack_state ps st) → l ∈ state_locs st.
Proof.
  unfold state_locs, pack_state. induction st as [|[p s] st IH]; [done|].
  cbn [omap list_omap fst snd flat_map].
  destruct (index_of p ps); cbn [fmap option_fmap option_map flat_map snd];
    rewrite ?elem_of_app; set_solver.
Qed.

Lemma state_locs_unpack idxs ps (sd : list (nat * adam_state)) (l : nat) :
  l ∈ state_locs (unpack_state idxs ps sd) → l ∈ state_locs sd.
Proof.
  unfold state_locs, unpack_state. induction sd as [|[i s] sd IH]; [done|].
  cbn [omap list_omap fst snd flat_map].
  destruct (assoc i (zip idxs ps)); cbn [fmap option_fmap option_map flat_map snd];
    rewrite ?elem_of_app; set_solver.
Qed.

Lemma length_copied_states {K} (n : nat) (sd : list (K * adam_state)) :
  length (copied_states n sd) = length sd.
Proof. revert n. induction sd as [|? ? IH]; intros n; [done|]. simpl. by rewrite IH. Qed.

Lemma reset_restores m0 o0 (h0 : heap) n mode w (h : heap) k1 k2 :
  let sd := state_dict "" m0 in
  let P := pack_state (params o0) (state o0) in
  let ms := zip sd.*1 (seq (length h0) (length sd)) in
  let os := OptimizerStateDict (copied_states (length h0 + length sd) P) (group o0)
              (omap (λ p, index_of p (params o0)) (params o0)) in
  let h1 := h0 ++ k1 ++ k2 in
  let w0 := Bnm m0 o0 n mode (Some ms) (Some os) in
  well_formed m0 o0 h0 →
  k1 = fresh_tensor ∘ data_at h0 <$> sd.*2 →
  k2 = copied_cells h0 P →
  wrapper_invariant w0 (length h0) h1 w h →
  ∃ w' h',
    BNM_reset w h = Ok (w', h') ∧
    wrapper_invariant w0 (length h0) h1 w' h' ∧
    steps w' = steps w ∧
    state_values (model w') h' = state_values m0 h0 ∧
    optimizer_values (optimizer_ w') h' = optimizer_values o0 h0.
Proof.
  intros sd P ms os h1 w0 (Hvsd & Hvps & Hvst & Hnd) Hk1 Hk2
    Hinv.
  assert (wrapper_invariant w0 (length h0) h1 w h) as
    (Hd & Hp & Hms & Hos & Hep & [Hlen Hsnap] & Hst) by done.
  subst w0. cbn [model optimizer_ model_state optimizer_state episodic] in *.
  fold sd in Hvsd, Hnd.
  assert (length k1 = length sd) as Hlk1 by (by rewrite Hk1, !length_fmap).
  assert (length k2 = 2 * length P) as Hlk2.
  { rewrite Hk2. unfold copied_cells. clear. induction P as [|? ? IH]; [done|].
    simpl in *. lia. }
  assert (length h1 = length h0 + length sd + 2 * length P) as Hlh1
    by (subst h1; rewrite !length_app; lia).
  assert (Forall (λ l, l < length h0) (state_locs P)) as HvP.
  { apply Forall_forall. intros l Hl%state_locs_pack.
    rewrite Forall_forall in Hvst. by apply Hvst. }
  (* the run *)
  unfold BNM_reset. rewrite Hms, Hos. unfold load_model_and_optimizer, bind.
  rewrite load_state_dict_run by (rewrite Hd; subst ms; apply zip_fst_seq; by rewrite length_fmap).
  set (hm := loaded (model w) ms h).
  destruct (loaded_frame (model w) ms h) as (Hlm & Hout & _). fold hm in Hlm, Hout.
  destruct (optimizer_load_state_dict_run (optimizer_ w) os hm) as (k & -> & Hlk & Hk).
  { subst os. cbn [sd_params]. rewrite Hp. by apply length_packed_params. }
  unfold ret. eexists _, _. split; [done|].
  cbn [sd_state sd_group sd_params os] in *.
  assert (Forall (λ l, l < length hm) (state_locs (copied_states (length h0 + length sd) P)))
    as HvS1.
  { rewrite state_locs_copied. apply Forall_forall. intros l Hl%elem_of_seq. lia. }
  specialize (Hk HvS1).
  assert (∀ l : nat, length h0 ≤ l < length h1 → hm !! l = h1 !! l) as Hsnapm.
  { intros l Hl. rewrite Hout; [by apply Hsnap|]. rewrite Hd. intros Hin.
    rewrite Forall_forall in Hvsd. apply Hvsd in Hin. lia. }
  split; [|split; [done|split]].
  - (* the invariant *)
    unfold wrapper_invariant, state_apart.
    cbn [model optimizer_ model_state optimizer_state episodic params state].
    do 5 (split; [done|]). split; [split|].
    + rewrite length_app. lia.
    + intros l Hl. rewrite lookup_app_l by lia. by apply Hsnapm.
    + apply Forall_forall. intros l Hl%state_locs_unpack.
      rewrite state_locs_copied, length_copied_states in Hl. apply elem_of_seq in Hl.
      rewrite length_app, Hlk, length_copied_states. lia.
  - (* the model *)
    cbn [model]. unfold state_values. rewrite Hd. fold sd.
    apply list_fmap_ext. intros i l Hi.
    assert (l < length h0) as Hl.
    { rewrite Forall_forall in Hvsd. eapply Hvsd, list_elem_of_lookup_2, Hi. }
    rewrite data_at_app by lia.
    pose proof (loaded_restores (model w) h0 h (length h0)) as Hr. cbn zeta in Hr.
    rewrite Hd in Hr. fold sd in Hr. fold ms in Hr. fold hm in Hr.
    apply Hr; [done|done|lia| |by eapply list_elem_of_lookup_2].
    intros j l' Hj. erewrite data_at_eq; [|apply Hsnap; apply lookup_lt_Some in Hj;
                                             rewrite length_fmap in Hj; lia].
    subst h1. unfold data_at. rewrite list_lookup_total_alt.
    rewrite lookup_app_r by lia.
    replace (length h0 + j - length h0) with j by lia.
    rewrite lookup_app_l by (apply lookup_lt_Some in Hj; rewrite length_fmap in Hj; lia).
    rewrite Hk1, list_lookup_fmap, Hj. done.
  - (* the optimizer *)
    cbn [optimizer_]. unfold optimizer_values. cbn [params group state].
    rewrite Hp. apply (f_equal (pair (params o0, group o0))).
    apply list_fmap_ext. intros i p Hi.
    apply list_elem_of_lookup_2 in Hi.
    fold (unpack_state (omap (λ p, index_of p (params o0)) (params o0)) (params o0)
            (copied_states (length hm) (copied_states (length h0 + length sd) P))).
    change (λ s : adam_state,
              (step s, data_at (hm ++ k) (exp_avg s), data_at (hm ++ k) (exp_avg_sq s)))
      with (value_of (hm ++ k)).
    change (λ s : adam_state,
              (step s, data_at h0 (exp_avg s), data_at h0 (exp_avg_sq s)))
      with (value_of h0).
    rewrite <- !assoc_fmap. rewrite unpack_state_fmap.
    rewrite Hk.
    pose proof (copied_values (copied_states (length h0 + length sd) P) hm [] HvS1) as Hc.
    rewrite app_nil_r in Hc. rewrite Hc.
    rewrite (values_ext _ h1 hm).
    2:{ intros l Hl. rewrite state_locs_copied in Hl. apply elem_of_seq in Hl.
        apply Hsnapm. lia. }
    assert (h1 = (h0 ++ k1) ++ copied_cells (h0 ++ k1) P ++ []) as ->.
    { subst h1. rewrite app_nil_r, <- app_assoc. do 2 f_equal. rewrite Hk2.
      symmetry. apply copied_cells_ext. intros l Hl.
      rewrite Forall_forall in HvP. apply lookup_app_l. by apply HvP. }
    replace (length h0 + length sd) with (length (h0 ++ k1))
      by (rewrite length_app; lia).
    rewrite copied_values.
    2:{ eapply Forall_impl; [exact HvP|]. intros l Hl. simpl in Hl.
        rewrite length_app. lia. }
    rewrite (values_ext P h0 (h0 ++ k1)).
    2:{ intros l Hl. rewrite Forall_forall in HvP. apply lookup_app_l. by apply HvP. }
    subst P. rewrite pack_state_fmap. by rewrite unpack_pack_state.
Qed.

Lemma calls_keep_invariant m0 o0 (h0 : heap) n mode k1 k2 calls :
  let sd := state_dict "" m0 in
  let P := pack_state (params o0) (state o0) in
  let ms := zip sd.*1 (seq (length h0) (length sd)) in
  let os := OptimizerStateDict (copied_states (length h0 + length sd) P) (group o0)
              (omap (λ p, index_of p (params o0)) (params o0)) in
  let h1 := h0 ++ k1 ++ k2 in
  let w0 := Bnm m0 o0 n mode (Some ms) (Some os) in
  well_formed m0 o0 h0 →
  k1 = fresh_tensor ∘ data_at h0 <$> sd.*2 →
  k2 = copied_cells h0 P →
  ∀ w (h : heap),
    wrapper_invariant w0 (length h0) h1 w h →
    ∃ w' h', run_calls w calls h = Ok (w', h') ∧
             wrapper_invariant w0 (length h0) h1 w' h'.
Proof.
  intros sd P ms os h1 w0 Hwf Hk1 Hk2.
  assert (Forall (λ l, l < length h0) (state_dict "" (model w0)).*2 ∧
          Forall (λ l, l < length h0) (params (optimizer_ w0))) as [Hvsd Hvps].
  { destruct Hwf as (? & ? & _). by subst w0. }
  apply foldM_invariant. intros c w h Hinv. destruct c as [x|]; cbn [call_method].
  - unfold bind, BNM_forward, bind.
    assert (∃ wa ha, (if episodic w then BNM_reset w else ret w) h = Ok (wa, ha) ∧
                     wrapper_invariant w0 (length h0) h1 wa ha)
      as (wa & ha & -> & Ha).
    { destruct (episodic w); [|by exists w, h].
      destruct (reset_restores m0 o0 h0 n mode w h k1 k2 Hwf Hk1 Hk2 Hinv)
        as (wa & ha & ? & ? & _). by exists wa, ha. }
    destruct (for_range_invariant (wrapper_invariant w0 (length h0) h1)
                (adapt_step x) (Z.to_nat (steps wa))) with wa ha
      as (wb & hb & -> & Hb); [|done|].
    { intros a h' Ha'.
      destruct (adapt_step_invariant w0 (length h0) h1 x a h' Hvsd Hvps Ha')
        as (a' & h'' & ? & ? & _). by exists a', h''. }
    destruct (forward_only_invariant w0 (length h0) h1 x wb hb Hvsd Hb)
      as (r & hc & -> & Hc).
    unfold ret. by eexists _, _.
  - destruct (reset_restores m0 o0 h0 n mode w h k1 k2 Hwf Hk1 Hk2 Hinv)
      as (wa & ha & ? & ? & _). by exists wa, ha.
Qed.

(** Restoring the snapshot gives back what was captured.  Take a
    wrapper constructed over a well-formed model and optimizer, and
    let any sequence of [forward] and [reset] calls run on it: the
    parameters and buffers are rewritten by the adaptation steps, the
    optimizer state replaced.  A [reset] then succeeds and leaves
    every tensor of [model.state_dict()] with the contents it had when
    the wrapper was constructed, and the optimizer with the options,
    step counts and moment tensors, by value, it had at that time. *)
Theorem reset_restores_snapshot (m0 : module) (o0 : optim) (h0 : heap) (n : Z)
    (mode : bool) (w0 : BNM) (h1 : heap) (calls : list method_call) (w : BNM)
    (h : heap) :
  well_formed m0 o0 h0 →
  BNM_init m0 o0 n mode h0 = Ok (w0, h1) →
  run_calls w0 calls h1 = Ok (w, h) →
  ∃ w' h',
    BNM_reset w h = Ok (w', h') ∧
    state_values (model w') h' = state_values m0 h0 ∧
    optimizer_values (optimizer_ w') h' = optimizer_values o0 h0.
Proof.
  intros Hwf (Hn & ms & os & Hc & ->)%BNM_init_inv Hrun.
  destruct (copy_model_and_optimizer_run m0 o0 h0)
    as (k1 & k2 & Hcrun & _ & _ & Hk1 & Hk2). cbn zeta in *.
  rewrite Hcrun in Hc. injection Hc as <- <- <-.
  assert (Forall (λ l, l < length h0) (state_dict "" m0).*2) as Hvsd by apply Hwf.
  assert (Forall (λ l, l < length h0)
            (state_locs (pack_state (params o0) (state o0)))) as HvP.
  { apply Forall_forall. intros l Hl%state_locs_pack.
    destruct Hwf as (_ & _ & Hvst & _). rewrite Forall_forall in Hvst. by apply Hvst. }
  specialize (Hk1 Hvsd). specialize (Hk2 HvP).
  match type of Hrun with run_calls ?w0 _ ?h1 = _ =>
    assert (wrapper_invariant w0 (length h0) h1 w0 h1) as Hinit end.
  { unfold wrapper_invariant, snapshot_intact, state_apart.
    cbn [model optimizer_ model_state optimizer_state episodic].
    do 5 (split; [done|]). split; [by split|].
    destruct Hwf as (_ & _ & Hvst & _). eapply Forall_impl; [exact Hvst|].
    intros l Hl. simpl in Hl. rewrite length_app. lia. }
  destruct (calls_keep_invariant m0 o0 h0 n mode k1 k2 calls Hwf Hk1 Hk2 _ _ Hinit)
    as (w' & h' & Hrun' & Hinv).
  unfold pack_state in *. cbn [sd_state sd_params optimizer_state_dict_of] in *.
  rewrite Hrun in Hrun'. injection Hrun' as <- <-.
  destruct (reset_restores m0 o0 h0 n mode w h k1 k2 Hwf Hk1 Hk2 Hinv)
    as (wa & ha & ? & _ & _ & ? & ?). by exists wa, ha.
Qed.

End snapshots.

(** ** Errors of the restore path; what [configure_model] keeps *)

Section restore_errors.
Context `{Torch}.

Lemma filter_nil_inv {A} (f : A → bool) (l : list A) :
  List.filter f l = [] → ∀ a, a ∈ l → f a = false.
Proof.
  induction l as [|a l IH]; intros Hf b Hb; [by apply elem_of_nil in Hb|].
  simpl in Hf. destruct (f a) eqn:E; [done|].
  apply elem_of_cons in Hb as [->|?]; [done|by apply IH].
Qed.

Lemma keys_match_dec (ks ls : list string) :
  (∀ k, k ∈ ks ↔ k ∈ ls) ∨ ¬ (∀ k, k ∈ ks ↔ k ∈ ls).
Proof.
  destruct (decide (Forall (λ k, k ∈ ls) ks ∧ Forall (λ k, k ∈ ks) ls)) as [[H1 H2]|Hn].
  - left. rewrite Forall_forall in H1, H2. intros k. split; auto.
  - right. intros Hk. apply Hn. split; apply Forall_forall; intros k ?; by apply Hk.
Qed.

Lemma load_state_dict_cases model sd (h : heap) :
  ((∀ k, k ∈ sd.*1 ↔ k ∈ (state_dict "" model).*1) →
   load_state_dict model sd h = Ok (tt, loaded model sd h)) ∧
  (¬ (∀ k, k ∈ sd.*1 ↔ k ∈ (state_dict "" model).*1) →
   load_state_dict model sd h = Raise (RuntimeError "Error(s) in loading state_dict")).
Proof.
  unfold load_state_dict, bind.
  rewrite (forM_run _ _ (load_entry sd))
    by (intros kl h'; unfold load_entry; by destruct (assoc kl.1 sd)).
  fold (loaded model sd h). split; intros Hk.
  - rewrite decide_True; [done|]. split; apply filter_nil_forall.
    + intros k Hin. apply bool_decide_eq_false. rewrite assoc_None, Hk. tauto.
    + intros k Hin. apply bool_decide_eq_false. rewrite <- Hk. tauto.
  - rewrite decide_False; [done|]. intros [Hmiss Hun]. apply Hk. intros k. split.
    + intros Hin. apply (filter_nil_inv _ _ Hun) in Hin.
      apply bool_decide_eq_false in Hin. by apply dec_stable.
    + intros Hin. apply (filter_nil_inv _ _ Hmiss) in Hin.
      apply bool_decide_eq_false in Hin. rewrite assoc_None in Hin.
      by apply dec_stable.
Qed.

Lemma optimizer_load_state_dict_cases o sd (h : heap) :
  (length (sd_params sd) ≠ length (params o) →
   optimizer_load_state_dict o sd h =
     Raise (ValueError "loaded state dict contains a parameter group that doesn't match the size of optimizer's group")) ∧
  (length (sd_params sd) = length (params o) →
   ∃ o' h', optimizer_load_state_dict o sd h = Ok (o', h') ∧
            params o' = params o ∧ group o' = sd_group sd ∧ h `prefix_of` h').
Proof.
  split.
  - intros Hne. destruct (deepcopy_states_run (sd_state sd) h) as (k & Hc & _).
    unfold optimizer_load_state_dict, bind, deepcopy_optimizer_state_dict, bind.
    rewrite Hc. unfold ret. cbn [sd_params]. by rewrite decide_False.
  - intros Hlen. destruct (optimizer_load_state_dict_run o sd h Hlen) as (k & -> & _).
    eexists _, _. split; [done|]. split; [done|]. split; [done|]. by eexists.
Qed.


(** [BNM.reset] raises its own exception, "cannot reset without saved
    model/optimizer state", exactly when the wrapper holds no model
    snapshot or no optimizer snapshot. *)
Theorem BNM_reset_missing_snapshot (self : BNM) (h : heap) :
  BNM_reset self h =
    Raise (Exception "cannot reset without saved model/optimizer state") ↔
  model_state self = None ∨ optimizer_state self = None.
Proof.
  unfold BNM_reset. destruct (model_state self) as [ms|]; [|by split; [left|]].
  destruct (optimizer_state self) as [os|]; [|by split; [right|]].
  split; [|by intros [?|?]]. unfold bind, load_model_and_optimizer, bind.
  destruct (load_state_dict_cases (model self) ms h) as [Hok Hbad].
  destruct (keys_match_dec ms.*1 (state_dict "" (model self)).*1) as [Hk|Hk];
    [rewrite (Hok Hk)|by rewrite (Hbad Hk)].
  destruct (optimizer_load_state_dict_cases (optimizer_ self) os
              (loaded (model self) ms h)) as [Hne Heq].
  destruct (decide (length (sd_params os) = length (params (optimizer_ self))))
    as [Hl|Hl].
  - by destruct (Heq Hl) as (o' & h' & -> & _).
  - by rewrite (Hne Hl).
Qed.

#[global] Instance same_contents_preorder : PreOrder same_contents.
Proof.
  split; [by intros ?|]. intros t1 t2 t3 [??] [??]. split; congruence.
Qed.

Lemma set_all_contents b ps (h : heap) : cells_related same_contents h (set_all b ps h).
Proof.
  unfold set_all.
  by related_by (cells_related_foldl same_contents
                   (λ _ : loc, set_requires_grad b) id).
Qed.

(** [configure_model] only switches flags: it never raises, allocates
    nothing, and leaves the contents and the gradient of every tensor
    as they are; in particular a gradient left over from earlier
    training is still there afterwards. *)
Theorem configure_model_keeps_contents (model : module) (h : heap) :
  ∃ model' h',
    configure_model model h = Ok (model', h') ∧
    length h' = length h ∧
    ∀ l, data_at h' l = data_at h l ∧ grad_at h' l = grad_at h l.
Proof.
  eexists _, _. split; [apply configure_model_run|].
  split; [by rewrite !set_all_length|]. intros l. unfold loc in l.
  set (h' := set_all true _ _).
  assert (cells_related same_contents h h') as Hrel.
  { eapply cells_related_trans; [apply _|apply set_all_contents|apply set_all_contents]. }
  unfold data_at, grad_at. rewrite !list_lookup_total_alt.
  destruct (h !! l) as [t|] eqn:Ht.
  - destruct (Hrel l t Ht) as (t' & -> & [??]). by simpl.
  - rewrite (lookup_ge_None_2 h'); [done|].
    subst h'. rewrite !set_all_length. by apply lookup_ge_None.
Qed.

End restore_errors.

(** ** Episodic calls are repeatable *)

Section episodes.
Context `{Torch}.



Lemma assoc_set_None {K V} `{EqDecision K} (k : K) (v : V) (l : list (K * V)) :
  assoc k l = None → assoc_set k v l = l ++ [(k, v)].
Proof.
  induction l as [|[k' v'] l IH]; simpl; [done|].
  case_decide; [done|]. intros Hn. by rewrite IH.
Qed.




















Lemma foldl_alter_proj {A B} (proj : tensor → B) (f : A → tensor → tensor)
    (key : A → loc) (l : list A) (h : heap) (i : nat) :
  (∀ a t, proj (f a t) = proj t) →
  proj (foldl (λ h a, alter (f a) (key a) h) h l !!! i) = proj (h !!! i).
Proof.
  intros Hf. revert h. induction l as [|a l IH]; intros h; [done|].
  cbn [foldl]. rewrite IH. rewrite !list_lookup_total_alt, list_lookup_alter.
  case_decide; [|done]. subst. unfold loc in *. destruct (h !! key a); [apply Hf|done].
Qed.


Lemma parameters_in_state_dict m (p : nat) :
  p ∈ parameters m → p ∈ (state_dict "" m).*2.
Proof. intros (md & ? & ?)%elem_of_parameters. apply elem_of_state_dict. eauto. Qed.


Lemma write_all_grad ws (h : heap) (l : nat) :
  grad_at (write_all ws h) l = grad_at h l.
Proof. apply (foldl_alter_proj grad (λ w : loc * storage, set_data w.2) fst). done. Qed.










Lemma train_train mode mode' m : train mode (train mode' m) = train mode m.
Proof.
  induction m as [|tr ps bs cs IH] using module_tree_ind; [done|].
  cbn [train]. f_equal. induction IH as [|nc r Hnc _ IHr]; [done|].
  rewrite !fmap_cons. cbn [fst snd]. by rewrite Hnc, IHr.
Qed.

Lemma adapt_step_run x w (h : heap) :
  adapt_step x w h =
    Ok (Bnm (train true (model w)) (adapted x (model w) (optimizer_ w) h).1.2
          (steps w) (episodic w) (model_state w) (optimizer_state w),
        (adapted x (model w) (optimizer_ w) h).2).
Proof. unfold adapt_step, bind. by rewrite forward_and_adapt_run. Qed.


Lemma state_locs_unpack_sublist idxs ps (sd : list (nat * adam_state)) :
  state_locs (unpack_state idxs ps sd) `sublist_of` state_locs sd.
Proof.
  unfold state_locs, unpack_state. induction sd as [|[i s] sd IH]; [done|].
  cbn [omap list_omap fst snd flat_map].
  destruct (assoc i (zip idxs ps)); cbn [fmap option_fmap option_map flat_map snd].
  - by apply sublist_app.
  - by apply sublist_inserts_l.
Qed.

Lemma BNM_reset_inv w (h : heap) w' (h' : heap) :
  BNM_reset w h = Ok (w', h') →
  model w' = model w ∧ steps w' = steps w ∧ episodic w' = episodic w ∧
  model_state w' = model_state w ∧ optimizer_state w' = optimizer_state w ∧
  params (optimizer_ w') = params (optimizer_ w) ∧
  cells_related same_autograd h h' ∧
  NoDup (state_locs (state (optimizer_ w'))) ∧
  Forall (λ l, length h ≤ l < length h') (state_locs (state (optimizer_ w'))).
Proof.
  unfold BNM_reset. destruct (model_state w) as [ms|] eqn:Hms; [|done].
  destruct (optimizer_state w) as [os|] eqn:Hos; [|done].
  unfold bind, load_model_and_optimizer, bind.
  destruct (load_state_dict_cases (model w) ms h) as [Hok Hbad].
  destruct (keys_match_dec ms.*1 (state_dict "" (model w)).*1) as [Hk|Hk];
    [rewrite (Hok Hk)|by rewrite (Hbad Hk)].
  destruct (decide (length (sd_params os) = length (params (optimizer_ w)))) as [Hl|Hl].
  2:{ destruct (optimizer_load_state_dict_cases (optimizer_ w) os
                  (loaded (model w) ms h)) as [Hne _]. by rewrite (Hne Hl). }
  destruct (optimizer_load_state_dict_run (optimizer_ w) os (loaded (model w) ms h) Hl)
    as (k & -> & Hlk & _).
  unfold ret. intros [= <- <-].
  cbn [model steps episodic model_state optimizer_state optimizer_ params state].
  destruct (loaded_frame (model w) ms h) as (Hlen & _ & Hrel).
  do 6 (split; [done|]). split; [|split].
  - eapply cells_related_trans; [apply _|exact Hrel|]. by related_by cells_related_app.
  - eapply sublist_NoDup;
      [|apply (state_locs_unpack_sublist (sd_params os) (params (optimizer_ w)))].
    rewrite state_locs_copied. apply NoDup_seq.
  - apply Forall_forall. intros l Hl'%state_locs_unpack.
    rewrite state_locs_copied in Hl'. apply elem_of_seq in Hl'.
    rewrite length_app, Hlk. lia.
Qed.

Lemma cells_requires_grad_at (h h' : heap) (p : nat) :
  cells_related same_requires_grad h h' → p < length h →
  requires_grad_at h' p = requires_grad_at h p.
Proof.
  intros Hrel Hp. destruct (lookup_lt_is_Some_2 h p Hp) as [t Ht].
  destruct (Hrel p t Ht) as (t' & Ht' & Hr). unfold requires_grad_at.
  by rewrite (list_lookup_total_correct _ _ _ Ht), (list_lookup_total_correct _ _ _ Ht').
Qed.


Lemma for_range_adapt_settles x k w (h : heap) w' (h' : heap) :
  for_range k (adapt_step x) w h = Ok (w', h') →
  train true (model w') = train true (model w) ∧ steps w' = steps w ∧
  params (optimizer_ w') = params (optimizer_ w) ∧
  cells_related same_requires_grad h h' ∧
  (0 < k → no_gradient (params (optimizer_ w)) h').
Proof.
  revert w h. induction k as [|k IH]; intros w h.
  { intros [= <- <-]. do 3 (split; [done|]).
    split; [by related_by cells_related_refl|lia]. }
  cbn [for_range]. unfold bind. rewrite adapt_step_run.
  intros Hrun. pose proof Hrun as (Hm & Hs & Hp & Hr & Hg)%IH.
  cbn [model steps optimizer_] in *. unfold adapted at 1 in Hp. cbn [fst snd params] in Hp.
  rewrite train_train in Hm.
  split; [done|]. split; [done|]. split; [done|]. split.
  - eapply cells_related_trans; [apply _|apply adapted_related|exact Hr].
  - intros _. destruct k as [|k].
    + injection Hrun as <- <-. intros p Hin. unfold adapted. cbn [snd].
      rewrite clear_grads_grad_at. by rewrite decide_True.
    + unfold adapted at 1 in Hg. cbn [fst snd params] in Hg. apply Hg. lia.
Qed.

Lemma BNM_forward_settles w x (h : heap) out w' (h' : heap) :
  BNM_forward w x h = Ok ((out, w'), h') →
  train true (model w') = train true (model w) ∧ steps w' = steps w ∧
  params (optimizer_ w') = params (optimizer_ w) ∧
  cells_related same_requires_grad h h' ∧
  ((0 < steps w)%Z → no_gradient (params (optimizer_ w)) h').
Proof.
  unfold BNM_forward, bind.
  destruct ((if episodic w then BNM_reset w else ret w) h) as [[wa ha]|] eqn:E1; [|done].
  assert (model wa = model w ∧ steps wa = steps w ∧
          params (optimizer_ wa) = params (optimizer_ w) ∧
          cells_related same_requires_grad h ha) as (Hm1 & Hs1 & Hp1 & Hr1).
  { destruct (episodic w).
    - apply BNM_reset_inv in E1 as (? & ? & _ & _ & _ & ? & ? & _).
      do 3 (split; [done|]). eapply cells_related_weaken; [|done].
      apply same_autograd_requires_grad.
    - injection E1 as <- <-. do 3 (split; [done|]). by related_by cells_related_refl. }
  destruct (for_range _ _ wa ha) as [[wb hb]|] eqn:E2; [|done].
  apply for_range_adapt_settles in E2 as (Hm2 & Hs2 & Hp2 & Hr2 & Hg2).
  rewrite forward_only_run. unfold ret. intros [= <- <- <-].
  cbn [model steps optimizer_ params].
  split; [unfold eval; rewrite train_train; congruence|].
  split; [congruence|]. split; [congruence|]. split.
  - eapply cells_related_trans; [apply _|exact Hr1|].
    eapply cells_related_trans; [apply _|exact Hr2|].
    by related_by (cells_related_foldl same_requires_grad
                     (λ w : loc * storage, set_data w.2) fst).
  - intros Hpos p Hin. rewrite write_all_grad. apply Hg2; [lia|congruence].
Qed.

Lemma call_method_settles w c (h : heap) w' (h' : heap) :
  call_method w c h = Ok (w', h') →
  train true (model w') = train true (model w) ∧ steps w' = steps w ∧
  params (optimizer_ w') = params (optimizer_ w) ∧
  cells_related same_requires_grad h h'.
Proof.
  destruct c as [x|]; cbn [call_method].
  - unfold bind. destruct (BNM_forward w x h) as [[[out wa] ha]|] eqn:E; [|done].
    intros [= <- <-]. apply BNM_forward_settles in E as (? & ? & ? & ? & _). done.
  - intros (Hm & ? & _ & _ & _ & ? & ? & _)%BNM_reset_inv. rewrite Hm.
    do 3 (split; [done|]). eapply cells_related_weaken; [|done].
    apply same_autograd_requires_grad.
Qed.

Lemma run_calls_settles calls w (h : heap) w' (h' : heap) :
  run_calls w calls h = Ok (w', h') →
  train true (model w') = train true (model w) ∧ steps w' = steps w ∧
  params (optimizer_ w') = params (optimizer_ w) ∧
  cells_related same_requires_grad h h'.
Proof.
  revert w h. induction calls as [|c calls IH]; intros w h.
  { intros [= <- <-]. do 3 (split; [done|]). by related_by cells_related_refl. }
  unfold run_calls. cbn [foldM]. unfold bind.
  destruct (call_method w c h) as [[wa ha]|] eqn:E; [|done].
  apply call_method_settles in E as (? & ? & ? & ?).
  intros (? & ? & ? & ?)%IH. split; [congruence|]. split; [congruence|].
  split; [congruence|]. by eapply cells_related_trans; [apply _| |].
Qed.

Lemma fmap_eq_elem {A B} (f g : A → B) (l : list A) x :
  f <$> l = g <$> l → x ∈ l → f x = g x.
Proof.
  induction l as [|a l IH]; intros E Hx; [by apply elem_of_nil in Hx|].
  rewrite !fmap_cons in E. injection E as E1 E2.
  apply elem_of_cons in Hx as [->|?]; auto.
Qed.




(** Whatever came before, a [forward] call on a constructed wrapper
    leaves no gradient on the parameters of the optimizer: at least one
    adaptation step runs, and each ends with [optimizer.zero_grad()]. *)
Theorem forward_leaves_no_gradient (m0 : module) (o0 : optim) (h0 : heap) (n : Z)
    (mode : bool) (w0 : BNM) (h1 : heap) (calls : list method_call) (w : BNM)
    (h : heap) (x : batch) (r : outputs * BNM) (h' : heap) :
  BNM_init m0 o0 n mode h0 = Ok (w0, h1) →
  run_calls w0 calls h1 = Ok (w, h) →
  BNM_forward w x h = Ok (r, h') →
  ∀ p, p ∈ params o0 → grad_at h' p = None.
Proof.
  intros (Hn & ms & os & _ & ->)%BNM_init_inv Hrun Hfwd.
  destruct (run_calls_settles _ _ _ _ _ Hrun) as (_ & Hs & Hp & _).
  cbn [steps optimizer_] in Hs, Hp. destruct r as [out w'].
  destruct (BNM_forward_settles _ _ _ _ _ _ Hfwd) as (_ & _ & _ & _ & Hg).
  rewrite Hs, Hp in Hg. apply Hg. lia.
Qed.

End episodes.

(** ** What adaptation leaves alone *)

Section frozen.
Context `{Torch}.

Lemma adapted_skips_frozen x model o (h : heap) (p : nat) :
  p < length h → requires_grad_at h p = false → grad_at h p = None →
  p ∉ buffers model → p ∉ state_locs (state o) →
  (adapted x model o h).2 !! p = h !! p.
Proof.
  intros Hlt Hrg Hg Hbuf Hst. unfold adapted. cbn [snd].
  set (m := train true model). set (ws := zip _ _). set (gs := leaf_grads _ _ _ _).
  assert (write_all ws h !! p = h !! p) as H1.
  { apply foldl_alter_lookup_outside.
    intros ([b d] & -> & Hw)%list_elem_of_fmap. apply Hbuf.
    apply elem_of_zip_l in Hw. subst m. by rewrite buffers_train in Hw. }
  assert (accumulate_all gs (write_all ws h) !! p = h !! p) as H2.
  { rewrite <- H1. apply foldl_alter_lookup_outside.
    intros ([q d] & Hpq & Hq)%list_elem_of_fmap. cbn [fst] in Hpq. subst q.
    apply leaf_grads_requires_grad in Hq. congruence. }
  rewrite clear_grads_lookup.
  rewrite adam_fold_keeps, H2; try done.
  - case_decide; [|done]. unfold grad_at in Hg.
    destruct (h !! p) as [[d rg gr]|] eqn:E; [|done].
    rewrite (list_lookup_total_correct _ _ _ E) in Hg. simpl in Hg. by subst.
  - by rewrite accumulate_all_length, write_all_length.
  - by rewrite (grad_at_eq _ _ _ H2).
Qed.

Lemma requires_grad_at_eq (h h' : heap) (l : nat) :
  h' !! l = h !! l → requires_grad_at h' l = requires_grad_at h l.
Proof. intros Hl. unfold requires_grad_at. by rewrite !list_lookup_total_alt, Hl. Qed.

Lemma for_range_adapt_frozen x k w (h : heap) w' (h' : heap) (p : nat) :
  for_range k (adapt_step x) w h = Ok (w', h') →
  p < length h → requires_grad_at h p = false → grad_at h p = None →
  p ∉ buffers (model w) → p ∉ state_locs (state (optimizer_ w)) →
  h' !! p = h !! p ∧ p ∉ state_locs (state (optimizer_ w')).
Proof.
  revert w h. induction k as [|k IH]; intros w h.
  { by intros [= <- <-]. }
  cbn [for_range]. unfold bind. rewrite adapt_step_run.
  intros Hrun Hlt Hrg Hg Hbuf Hst.
  pose proof (adapted_skips_frozen x (model w) (optimizer_ w) h p Hlt Hrg Hg Hbuf Hst)
    as Hsame.
  destruct (adapted_frame x (model w) (optimizer_ w) h) as [[Hlen _] Hl].
  apply IH in Hrun as [Hp Hst']; cbn [model optimizer_].
  - split; [congruence|done].
  - lia.
  - by rewrite (requires_grad_at_eq _ _ _ Hsame).
  - by rewrite (grad_at_eq _ _ _ Hsame).
  - by rewrite buffers_train.
  - intros [?|?]%Hl; [done|lia].
Qed.

Lemma BNM_reset_frame w (h : heap) w' (h' : heap) (l : nat) :
  BNM_reset w h = Ok (w', h') →
  l < length h → l ∉ (state_dict "" (model w)).*2 → h' !! l = h !! l.
Proof.
  unfold BNM_reset. destruct (model_state w) as [ms|] eqn:Hms; [|done].
  destruct (optimizer_state w) as [os|] eqn:Hos; [|done].
  unfold bind, load_model_and_optimizer, bind.
  destruct (load_state_dict_cases (model w) ms h) as [Hok Hbad].
  destruct (keys_match_dec ms.*1 (state_dict "" (model w)).*1) as [Hk|Hk];
    [rewrite (Hok Hk)|by rewrite (Hbad Hk)].
  destruct (decide (length (sd_params os) = length (params (optimizer_ w)))) as [Hl|Hl].
  2:{ destruct (optimizer_load_state_dict_cases (optimizer_ w) os
                  (loaded (model w) ms h)) as [Hne _]. by rewrite (Hne Hl). }
  destruct (optimizer_load_state_dict_run (optimizer_ w) os (loaded (model w) ms h) Hl)
    as (k & -> & Hlk & _).
  unfold ret. intros [= <- <-] Hlt Hout.
  destruct (loaded_frame (model w) ms h) as (Hlen & Hfr & _).
  rewrite lookup_app_l by lia. by apply Hfr.
Qed.

Lemma tensor_eq (t t' : tensor) :
  data t' = data t → requires_grad t' = requires_grad t → grad t' = grad t → t' = t.
Proof. destruct t, t'. simpl. by intros -> -> ->. Qed.

Lemma calls_keep_frozen m0 o0 (h0 : heap) n mode k1 k2 (p : nat) calls :
  let sd := state_dict "" m0 in
  let P := pack_state (params o0) (state o0) in
  let ms := zip sd.*1 (seq (length h0) (length sd)) in
  let os := OptimizerStateDict (copied_states (length h0 + length sd) P) (group o0)
              (omap (λ p, index_of p (params o0)) (params o0)) in
  let h1 := h0 ++ k1 ++ k2 in
  let w0 := Bnm m0 o0 n mode (Some ms) (Some os) in
  well_formed m0 o0 h0 →
  k1 = fresh_tensor ∘ data_at h0 <$> sd.*2 →
  k2 = copied_cells h0 P →
  p < length h0 → requires_grad_at h0 p = false → grad_at h0 p = None →
  p ∉ buffers m0 →
  ∀ w (h : heap),
    wrapper_invariant w0 (length h0) h1 w h →
    train true (model w) = train true m0 →
    p ∉ state_locs (state (optimizer_ w)) →
    h !! p = h0 !! p →
    ∀ w' (h' : heap), run_calls w calls h = Ok (w', h') → h' !! p = h0 !! p.
Proof.
  intros sd P ms os h1 w0 Hwf Hk1 Hk2 Hlt Hrg Hg Hbuf.
  assert (∀ w (h : heap) w' (h' : heap),
            wrapper_invariant w0 (length h0) h1 w h →
            train true (model w) = train true m0 →
            h !! p = h0 !! p →
            BNM_reset w h = Ok (w', h') →
            h' !! p = h0 !! p ∧ p ∉ state_locs (state (optimizer_ w'))) as Hreset.
  { intros w h w' h' Hinv Hm Hp Hr.
    destruct (reset_restores m0 o0 h0 n mode w h k1 k2 Hwf Hk1 Hk2 Hinv)
      as (w2 & h2 & Hr2 & Hinv2 & _ & Hv & _).
    rewrite Hr in Hr2. injection Hr2 as <- <-.
    destruct (BNM_reset_inv _ _ _ _ Hr) as (_ & _ & _ & _ & _ & _ & Hrel & _ & Hfresh).
    pose proof Hinv as (Hd & _ & _ & _ & _ & [Hlen1 _] & _).
    assert (length h0 ≤ length h1) as Hl01 by (unfold h1; rewrite length_app; lia).
    split.
    - destruct (decide (p ∈ sd.*2)) as [Hin|Hout].
      + destruct (lookup_lt_is_Some_2 h p) as [t Ht]; [lia|].
        destruct (Hrel p t Ht) as (t' & Ht' & Hrg' & Hg').
        rewrite <- Hp, Ht, Ht'. f_equal. apply tensor_eq; [|done|done].
        assert (data_at h' p = data_at h0 p) as Hdat.
        { unfold state_values in Hv. destruct Hinv2 as (Hd2 & _).
          cbn [model] in Hd2. rewrite Hd2 in Hv. fold sd in Hv.
          by apply (fmap_eq_elem _ _ _ p) in Hv. }
        pose proof (data_at_eq _ _ _ Hp) as Hdp. unfold data_at in Hdat, Hdp.
        rewrite (list_lookup_total_correct _ _ _ Ht') in Hdat.
        rewrite (list_lookup_total_correct _ _ _ Ht) in Hdp. congruence.
      + rewrite <- Hp. eapply BNM_reset_frame; [done|lia|]. rewrite Hd. done.
    - rewrite Forall_forall in Hfresh. intros Hin%Hfresh. lia. }
  induction calls as [|c calls IH]; intros w h Hinv Hm Hst Hp w' h'.
  { by intros [= <- <-]. }
  unfold run_calls. cbn [foldM]. unfold bind.
  destruct (call_method w c h) as [[wa ha]|] eqn:E; [|done].
  destruct (calls_keep_invariant m0 o0 h0 n mode k1 k2 [c] Hwf Hk1 Hk2 w h Hinv)
    as (wa' & ha' & Hc & Hinva).
  unfold run_calls in Hc. cbn [foldM] in Hc. unfold bind in Hc. rewrite E in Hc.
  injection Hc as <- <-.
  destruct (call_method_settles _ _ _ _ _ E) as (Hma & _ & _ & _).
  assert (length h0 ≤ length h1) as Hl01 by (unfold h1; rewrite length_app; lia).
  pose proof Hinv as (_ & _ & _ & _ & _ & [Hlen1 _] & _).
  assert (ha !! p = h0 !! p ∧ p ∉ state_locs (state (optimizer_ wa))) as [Hpa Hsta].
  { destruct c as [x|]; cbn [call_method] in E.
    - unfold bind in E.
      destruct (BNM_forward w x h) as [[[out wb] hb]|] eqn:Ef; [|done].
      injection E as <- <-. unfold BNM_forward, bind in Ef.
      destruct ((if episodic w then BNM_reset w else ret w) h) as [[w1 hh1]|] eqn:E1;
        [|done].
      assert (hh1 !! p = h0 !! p ∧ model w1 = model w ∧ length h ≤ length hh1 ∧
              p ∉ state_locs (state (optimizer_ w1))) as (Hp1 & Hm1 & Hl1 & Hst1).
      { destruct (episodic w).
        - destruct (Hreset _ _ _ _ Hinv Hm Hp E1) as [? ?].
          destruct (BNM_reset_inv _ _ _ _ E1) as (? & _ & _ & _ & _ & _ & Hrel & _).
          apply cells_related_length in Hrel. done.
        - injection E1 as <- <-. done. }
      destruct (for_range _ _ w1 hh1) as [[w2 hh2]|] eqn:E2; [|done].
      destruct (for_range_adapt_settles _ _ _ _ _ _ E2) as (Hm2 & _).
      apply (for_range_adapt_frozen _ _ _ _ _ _ p) in E2 as [Hp2 Hst2].
      + rewrite forward_only_run in Ef. injection Ef as <- <- <-.
        cbn [optimizer_]. split; [|done]. rewrite <- Hp1, <- Hp2.
        apply foldl_alter_lookup_outside.
        intros ([b d] & -> & Hw)%list_elem_of_fmap. apply elem_of_zip_l in Hw.
        unfold eval in Hw. rewrite buffers_train in Hw.
        apply Hbuf. rewrite <- (buffers_train true m0), <- Hm, <- Hm1, <- Hm2.
        by rewrite buffers_train.
      + lia.
      + by rewrite (requires_grad_at_eq _ _ _ Hp1).
      + by rewrite (grad_at_eq _ _ _ Hp1).
      + rewrite Hm1, <- (buffers_train true (model w)), Hm. by rewrite buffers_train.
      + done.
    - by apply (Hreset _ _ _ _ Hinv Hm Hp E). }
  apply IH; [done|congruence|done|done].
Qed.


Lemma constructed_keeps_frozen (m0 : module) (o0 : optim) (h0 : heap) (n : Z)
    (mode : bool) (w0 : BNM) (h1 : heap) (calls : list method_call) (w : BNM)
    (h : heap) (p : nat) :
  well_formed m0 o0 h0 →
  BNM_init m0 o0 n mode h0 = Ok (w0, h1) →
  run_calls w0 calls h1 = Ok (w, h) →
  p < length h0 →
  requires_grad_at h0 p = false →
  grad_at h0 p = None →
  p ∉ buffers m0 →
  p ∉ state_locs (state o0) →
  h !! p = h0 !! p.
Proof.
  intros Hwf (Hn & ms & os & Hc & ->)%BNM_init_inv Hrun Hlt Hrg Hg Hbuf Hst.
  destruct (copy_model_and_optimizer_run m0 o0 h0)
    as (k1 & k2 & Hcrun & _ & _ & Hk1 & Hk2). cbn zeta in *.
  rewrite Hcrun in Hc. injection Hc as <- <- <-.
  assert (Forall (λ l, l < length h0) (state_dict "" m0).*2) as Hvsd by apply Hwf.
  assert (Forall (λ l, l < length h0)
            (state_locs (pack_state (params o0) (state o0)))) as HvP.
  { apply Forall_forall. intros l Hl%state_locs_pack.
    destruct Hwf as (_ & _ & Hvst & _). rewrite Forall_forall in Hvst. by apply Hvst. }
  specialize (Hk1 Hvsd). specialize (Hk2 HvP).
  match type of Hrun with run_calls ?w0 _ ?h1 = _ =>
    assert (wrapper_invariant w0 (length h0) h1 w0 h1) as Hinit end.
  { unfold wrapper_invariant, snapshot_intact, state_apart.
    cbn [model optimizer_ model_state optimizer_state episodic].
    do 5 (split; [done|]). split; [by split|].
    destruct Hwf as (_ & _ & Hvst & _). eapply Forall_impl; [exact Hvst|].
    intros l Hl. simpl in Hl. rewrite length_app. lia. }
  eapply (calls_keep_frozen m0 o0 h0 n mode k1 k2 p calls Hwf Hk1 Hk2 Hlt Hrg Hg Hbuf
            _ _ Hinit); [done|done| |exact Hrun].
  by apply lookup_app_l.
Qed.

(** What the wrapper never touches.  Take a wrapper constructed over a
    well-formed model and optimizer and a tensor that, at that time,
    neither requires gradients nor carries one, and is neither a
    buffer of the model nor a moment tensor of the optimizer.  However
    many [forward] and [reset] calls follow, the tensor stays exactly
    as it was, even if it is one of the parameters handed to the
    optimizer: Adam skips it at every step, and a reset writes back
    the contents it already has. *)
Theorem frozen_tensors_never_change (m0 : module) (o0 : optim) (h0 : heap) (n : Z)
    (mode : bool) (w0 : BNM) (h1 : heap) (calls : list method_call) (w : BNM)
    (h : heap) (p : nat) :
  well_formed m0 o0 h0 →
  BNM_init m0 o0 n mode h0 = Ok (w0, h1) →
  run_calls w0 calls h1 = Ok (w, h) →
  p < length h0 →
  requires_grad_at h0 p = false →
  grad_at h0 p = None →
  p ∉ buffers m0 →
  p ∉ state_locs (state o0) →
  h !! p = h0 !! p.
Proof. apply constructed_keeps_frozen. Qed.

(** The snapshot is never written: the tensors allocated by
    [copy_model_and_optimizer] at construction hold, after any
    sequence of [forward] and [reset] calls, what they held when the
    constructor returned.  Adaptation and restoring only write live
    tensors and tensors allocated later. *)
Theorem snapshot_never_written (m0 : module) (o0 : optim) (h0 : heap) (n : Z)
    (mode : bool) (w0 : BNM) (h1 : heap) (calls : list method_call) (w : BNM)
    (h : heap) (l : nat) :
  well_formed m0 o0 h0 →
  BNM_init m0 o0 n mode h0 = Ok (w0, h1) →
  run_calls w0 calls h1 = Ok (w, h) →
  length h0 ≤ l < length h1 →
  h !! l = h1 !! l.
Proof.
  intros Hwf (Hn & ms & os & Hc & ->)%BNM_init_inv Hrun Hl.
  destruct (copy_model_and_optimizer_run m0 o0 h0)
    as (k1 & k2 & Hcrun & _ & _ & Hk1 & Hk2). cbn zeta in *.
  rewrite Hcrun in Hc. injection Hc as <- <- <-.
  assert (Forall (λ l, l < length h0) (state_dict "" m0).*2) as Hvsd by apply Hwf.
  assert (Forall (λ l, l < length h0)
            (state_locs (pack_state (params o0) (state o0)))) as HvP.
  { apply Forall_forall. intros l' Hl'%state_locs_pack.
    destruct Hwf as (_ & _ & Hvst & _). rewrite Forall_forall in Hvst. by apply Hvst. }
  specialize (Hk1 Hvsd). specialize (Hk2 HvP).
  match type of Hrun with run_calls ?w0 _ ?h1 = _ =>
    assert (wrapper_invariant w0 (length h0) h1 w0 h1) as Hinit end.
  { unfold wrapper_invariant, snapshot_intact, state_apart.
    cbn [model optimizer_ model_state optimizer_state episodic].
    do 5 (split; [done|]). split; [by split|].
    destruct Hwf as (_ & _ & Hvst & _). eapply Forall_impl; [exact Hvst|].
    intros l' Hl'. simpl in Hl'. rewrite length_app. lia. }
  destruct (calls_keep_invariant m0 o0 h0 n mode k1 k2 calls Hwf Hk1 Hk2 _ _ Hinit)
    as (w' & h' & Hrun' & Hinv).
  unfold pack_state in *. cbn [sd_state sd_params optimizer_state_dict_of] in *.
  rewrite Hrun in Hrun'. injection Hrun' as <- <-.
  destruct Hinv as (_ & _ & _ & _ & _ & [_ Hsnap] & _). by apply Hsnap.
Qed.

Lemma module_buffers_batch_stats md (b : nat) :
  b ∈ (module_buffers (map_nodes use_batch_stats md)).*2 → b ∈ (module_buffers md).*2.
Proof.
  destruct md as [tr w bb trs rm rv nbt|tr ps bs cs]; [|done].
  cbn [map_nodes use_batch_stats module_buffers named app]. rewrite !fmap_app.
  rewrite !elem_of_app. auto.
Qed.

Lemma buffers_batch_stats m (b : nat) :
  b ∈ buffers (map_nodes use_batch_stats m) → b ∈ buffers m.
Proof.
  rewrite !elem_of_buffers. intros (md & Hmd & Hb).
  rewrite modules_map_nodes in Hmd by apply attribute_update_batch_stats.
  apply list_elem_of_fmap in Hmd as (md0 & -> & Hmd0). exists md0.
  split; [done|]. by apply module_buffers_batch_stats.
Qed.

Lemma state_dict_batch_stats prefix m :
  state_dict prefix (map_nodes use_batch_stats m) `sublist_of` state_dict prefix m.
Proof.
  revert prefix.
  induction m as [tr w b trs rm rv nbt|tr ps bs cs IH] using module_tree_ind;
    intros prefix.
  - cbn [map_nodes use_batch_stats state_dict module_parameters module_buffers named app].
    rewrite !app_nil_r. apply fmap_sublist. apply sublist_app; [done|].
    do 2 apply sublist_inserts_l. done.
  - cbn [map_nodes use_batch_stats with_children state_dict module_parameters
           module_buffers].
    apply sublist_app; [done|].
    induction IH as [|nc r Hnc _ IHr]; [done|].
    rewrite fmap_cons. cbn [flat_map fst snd]. by apply sublist_app.
Qed.

Lemma setup_bnm_inv m args (h : heap) w0 (h1 : heap) :
  setup_bnm m args h = Ok (w0, h1) →
  BNM_init (map_nodes use_batch_stats (train true m))
    (Adam (parameters m)
       (ParamGroup (args_lr args) (float_lit 0.9, float_lit 0.999)
          (float_lit 1e-8) (float_lit 0)) [])
    1 false
    (set_all true (norm_parameters m) (set_all false (parameters m) h)) = Ok (w0, h1).
Proof.
  assert (parameters (map_nodes use_batch_stats (train true m)) = parameters m) as Hp.
  { rewrite parameters_map_nodes by apply attribute_update_batch_stats.
    apply parameters_train. }
  unfold setup_bnm, bind. rewrite configure_model_run.
  unfold collect_params. fold (parameters (map_nodes use_batch_stats (train true m))).
  rewrite Hp. unfold setup_optimizer. case_decide; [done|]. unfold ret at 1.
  destruct (BNM_init _ _ _ _ _) as [[w hh]|]; [|done]. by intros [= <- <-].
Qed.

(** [setup_bnm] hands every parameter of the model to the optimizer,
    yet adaptation only ever changes the scale and shift of the
    batch-norm layers.  A parameter that does not belong to a
    [BatchNorm2d] layer (and is not also registered as a buffer, and
    carries no gradient from earlier training when [setup_bnm] is
    called) has, after any sequence of calls on the wrapper, the
    contents it had before [setup_bnm]; it does not require gradients
    and carries none. *)
Theorem setup_bnm_adapts_norm_parameters_only (m : module) (args : Namespace)
    (h : heap) (w0 : BNM) (h1 : heap) (calls : list method_call) (w : BNM)
    (h' : heap) (p : nat) :
  Forall (λ l, l < length h) (state_dict "" m).*2 →
  NoDup (state_dict "" m).*1 →
  setup_bnm m args h = Ok (w0, h1) →
  run_calls w0 calls h1 = Ok (w, h') →
  p ∈ parameters m →
  p ∉ norm_parameters m →
  p ∉ buffers m →
  grad_at h p = None →
  data_at h' p = data_at h p ∧ requires_grad_at h' p = false ∧ grad_at h' p = None.
Proof.
  intros Hvsd Hnd Hsetup%setup_bnm_inv Hrun Hp Hnorm Hbuf Hg.
  set (m' := map_nodes use_batch_stats (train true m)) in *.
  set (hc := set_all true (norm_parameters m) (set_all false (parameters m) h)) in *.
  rewrite Forall_forall in Hvsd.
  assert (p < length h) as Hlt by (by apply Hvsd, parameters_in_state_dict).
  assert (length hc = length h) as Hlen by (unfold hc; by rewrite !set_all_length).
  assert (state_dict "" m' `sublist_of` state_dict "" m) as Hsub.
  { unfold m'. rewrite <- (state_dict_train true "" m). apply state_dict_batch_stats. }
  destruct (lookup_lt_is_Some_2 h p Hlt) as [t Ht].
  assert (hc !! p = Some (set_requires_grad false t)) as Hc.
  { unfold hc. rewrite set_all_lookup, decide_False by done.
    by rewrite set_all_lookup, decide_True, Ht by done. }
  assert (h' !! p = hc !! p) as Hsame.
  { eapply (constructed_keeps_frozen m' _ hc 1 false w0 h1 calls w h' p);
      [|exact Hsetup|exact Hrun|lia| | | |].
    - split; [|split; [|split]].
      + apply Forall_forall. intros l Hl. rewrite Hlen. apply Hvsd.
        eapply elem_of_sublist; [exact Hl|]. by apply fmap_sublist.
      + apply Forall_forall. intros l Hl%parameters_in_state_dict.
        rewrite Hlen. by apply Hvsd.
      + constructor.
      + eapply sublist_NoDup; [exact Hnd|]. by apply fmap_sublist.
    - unfold requires_grad_at. by rewrite (list_lookup_total_correct _ _ _ Hc).
    - unfold grad_at in *. rewrite (list_lookup_total_correct _ _ _ Hc).
      by rewrite (list_lookup_total_correct _ _ _ Ht) in Hg.
    - intros Hin%buffers_batch_stats. rewrite buffers_train in Hin. done.
    - apply not_elem_of_nil. }
  rewrite Hc in Hsame. unfold data_at, requires_grad_at, grad_at in *.
  rewrite (list_lookup_total_correct _ _ _ Hsame).
  rewrite !list_lookup_total_alt, Ht in *. by destruct t.
Qed.

End frozen.

(** ** Modes and flags across calls *)

Section modes.
Context `{Torch}.

Lemma BNM_forward_eval w x (h : heap) out w' (h' : heap) :
  BNM_forward w x h = Ok ((out, w'), h') →
  ∃ m, model w' = eval m ∧ out_grad_fn out = None.
Proof.
  unfold BNM_forward, bind.
  destruct ((if episodic w then BNM_reset w else ret w) h) as [[wa ha]|]; [|done].
  destruct (for_range _ _ wa ha) as [[wb hb]|]; [|done].
  rewrite forward_only_run. unfold ret. intros [= <- <- <-]. by eexists.
Qed.

(** A [forward] call leaves the wrapped model in evaluation mode (the
    last thing it does is [forward_only], which calls [model.eval()]),
    and the output it returns carries no autograd graph.  So
    [check_model], run on the model after a [forward], raises its
    train-mode assertion, although the next [forward] will switch the
    model back to training mode by itself. *)
Theorem forward_leaves_eval_mode (w : BNM) (x : batch) (h : heap) (out : outputs)
    (w' : BNM) (h' : heap) :
  BNM_forward w x h = Ok ((out, w'), h') →
  (∀ m, m ∈ modules (model w') → training m = false) ∧
  out_grad_fn out = None ∧
  check_model (model w') h' =
    Raise (AssertionError "BNM needs train mode: call model.train()").
Proof.
  intros (m & Hm & Hout)%BNM_forward_eval. rewrite Hm.
  assert (∀ md, md ∈ modules (eval m) → training md = false) as Hall
    by (intros md; apply training_train).
  split; [done|]. split; [done|].
  unfold check_model, bind, assert. rewrite (Hall (eval m)); [done|].
  unfold modules. destruct (eval m); simpl; by left.
Qed.

(** What calls on a wrapper never do, whatever the wrapper and the
    heap: they deallocate nothing, change no [requires_grad] flag of
    an existing tensor, leave the parameter list of the optimizer and
    the step count as they are, and change the module tree in its
    training flags only. *)
Theorem calls_never_change_flags (w : BNM) (calls : list method_call) (h : heap)
    (w' : BNM) (h' : heap) :
  run_calls w calls h = Ok (w', h') →
  length h ≤ length h' ∧
  (∀ l : nat, l < length h → requires_grad_at h' l = requires_grad_at h l) ∧
  params (optimizer_ w') = params (optimizer_ w) ∧
  steps w' = steps w ∧
  train true (model w') = train true (model w).
Proof.
  intros (Hm & Hs & Hp & Hrel)%run_calls_settles.
  split; [by eapply cells_related_length|]. split; [|done].
  intros l Hl. by apply cells_requires_grad_at.
Qed.

End modes.

(** ** The stopping rule of the script *)

Section script_loop.
Context {A : Type} (lt : A → A → bool).
Hypothesis lt_irrefl : ∀ x, lt x x = false.
Hypothesis lt_trans : ∀ x y z, lt x y = true → lt y z = true → lt x z = true.
Hypothesis lt_incomparable :
  ∀ x y z, lt x y = false → lt y z = false → lt x z = false.

Lemma min_fold_spec x r :
  let m := foldl (λ min_item item, if lt item min_item then item else min_item) x r in
  m ∈ x :: r ∧ ∀ y, y ∈ x :: r → lt y m = false.
Proof.
  revert x. induction r as [|y r IH]; intros x; cbn [foldl].
  - split; [by left|]. intros y ->%list_elem_of_singleton. apply lt_irrefl.
  - destruct (IH (if lt y x then y else x)) as [Hin Hmin]. cbn zeta in *.
    set (m := foldl _ _ r) in *. split.
    + apply elem_of_cons in Hin as [Hin|Hin]; [|by do 2 right].
      rewrite Hin. destruct (lt y x); [right; by left|by left].
    + intros z Hz. destruct (lt y x) eqn:Hyx.
      * apply elem_of_cons in Hz as [->|Hz]; [|by apply Hmin].
        destruct (lt x m) eqn:Hxm; [|done].
        rewrite <- (Hmin y); [|by left]. symmetry. by eapply lt_trans.
      * apply elem_of_cons in Hz as [->|Hz]; [apply Hmin; by left|].
        apply elem_of_cons in Hz as [->|Hz]; [|apply Hmin; by right].
        eapply lt_incomparable; [exact Hyx|]. apply Hmin. by left.
Qed.

Lemma lt_min a l m : py_min lt l = Some m → lt a m = forallb (lt a) l.
Proof.
  destruct l as [|x r]; [done|]. intros [= <-].
  destruct (min_fold_spec x r) as [Hin Hmin]. cbn zeta in *.
  set (m := foldl _ _ r) in *.
  destruct (forallb (lt a) (x :: r)) eqn:Hall.
  - rewrite forallb_forall in Hall. apply Hall. by apply list_elem_of_In.
  - destruct (lt a m) eqn:Ham; [|done]. rewrite <- Hall. symmetry.
    apply forallb_forall. intros y Hy%list_elem_of_In.
    destruct (lt a y) eqn:Hay; [done|].
    rewrite <- Ham. symmetry. eapply lt_incomparable; [exact Hay|by apply Hmin].
Qed.

Lemma termination_patience (epoch stopepoch : Z) (all_err_cls : list A) :
  (2 ≤ stopepoch)%Z → Z.of_nat (length all_err_cls) = epoch →
  termination lt epoch stopepoch all_err_cls = Returns (no_improvement lt stopepoch all_err_cls).
Proof.
  intros Hk Hlen. unfold termination, no_improvement. cbn zeta. rewrite Hlen.
  destruct (decide (epoch > stopepoch + 1)%Z) as [Hgt|Hle].
  2:{ rewrite bool_decide_eq_false_2 by done.
      by rewrite (bool_decide_eq_false_2 (stopepoch + 1 < epoch)%Z) by lia. }
  rewrite bool_decide_eq_true_2 by done.
  rewrite (bool_decide_eq_true_2 (stopepoch + 1 < epoch)%Z) by lia. cbn [andb].
  unfold getitem, slice_from. cbn zeta. rewrite Hlen.
  rewrite decide_False by lia. rewrite decide_True by lia. rewrite decide_True by lia.
  replace (Z.to_nat (epoch + - stopepoch)) with (length all_err_cls - Z.to_nat stopepoch)
    by lia.
  replace (Z.to_nat (Z.max (epoch + (- stopepoch + 1)) 0))
    with (S (length all_err_cls - Z.to_nat stopepoch)) by lia.
  set (i := length all_err_cls - Z.to_nat stopepoch).
  destruct (lookup_lt_is_Some_2 all_err_cls i) as [a Ha]; [lia|]. rewrite Ha.
  destruct (py_min lt (drop (S i) all_err_cls)) as [m|] eqn:Hm.
  - f_equal. by apply lt_min.
  - destruct (drop (S i) all_err_cls) eqn:Hd; [|done].
    apply (f_equal length) in Hd. rewrite length_drop in Hd. simpl in Hd. lia.
Qed.


Lemma epochs_patience (stopepoch : Z) (all_err_cls upcoming : list A) :
  (2 ≤ stopepoch)%Z →
  match epochs lt stopepoch (Z.of_nat (length all_err_cls) + 1) all_err_cls upcoming with
  | Completed all =>
      all = all_err_cls ++ upcoming ∧
      ∀ j, 0 < j ≤ length upcoming →
           no_improvement lt stopepoch (all_err_cls ++ take j upcoming) = false
  | Terminated epoch all =>
      ∃ j, 0 < j ≤ length upcoming ∧ epoch = Z.of_nat (length all_err_cls + j) ∧
           all = all_err_cls ++ take j upcoming ∧
           no_improvement lt stopepoch all = true ∧
           ∀ i, 0 < i < j →
                no_improvement lt stopepoch (all_err_cls ++ take i upcoming) = false
  | Raised _ _ => False
  end.
Proof.
  intros Hk. revert all_err_cls.
  induction upcoming as [|err_cls upcoming IH]; intros all_err_cls; cbn [epochs].
  { split; [by rewrite app_nil_r|]. simpl. lia. }
  rewrite termination_patience; [|done|rewrite length_app; simpl; lia].
  destruct (no_improvement lt stopepoch (all_err_cls ++ [err_cls])) eqn:Hstop.
  - exists 1. cbn [take length]. split; [lia|]. split; [lia|].
    split; [done|]. split; [done|]. lia.
  - specialize (IH (all_err_cls ++ [err_cls])).
    replace (Z.of_nat (length (all_err_cls ++ [err_cls])) + 1)%Z
      with (Z.of_nat (length all_err_cls) + 1 + 1)%Z in IH
      by (rewrite length_app; simpl; lia).
    destruct (epochs lt stopepoch _ (all_err_cls ++ [err_cls]) upcoming)
      as [all|epoch all|epoch e]; [| |done].
    + destruct IH as [-> Hno]. split; [by rewrite <- app_assoc|].
      intros [|j] Hj; [lia|]. cbn [take]. destruct j as [|j].
      * by rewrite take_0.
      * specialize (Hno (S j)). rewrite <- app_assoc in Hno. apply Hno.
        simpl in Hj. lia.
    + destruct IH as (j & Hj & -> & -> & Hst & Hno). exists (S j).
      cbn [take length]. rewrite <- app_assoc in *. cbn [app] in *.
      split; [lia|]. split; [rewrite length_app; simpl; lia|].
      split; [done|]. split; [done|].
      intros [|i] Hi; [lia|]. cbn [take]. destruct i as [|i].
      * by rewrite take_0.
      * specialize (Hno (S i)). rewrite <- app_assoc in Hno. apply Hno. lia.
Qed.

(** With [--stopepoch] at least 2 (the default is 25) the loop never
    raises, and it breaks at the first epoch at which more than
    [stopepoch + 1] errors have been recorded and the error recorded
    [stopepoch] entries from the end is strictly below each of the
    [stopepoch - 1] errors recorded after it; if there is no such
    epoch, all [nepoch] epochs run. *)
Theorem main_loop_patience (stopepoch : Z) (errs : list A) :
  (2 ≤ stopepoch)%Z →
  match main_loop lt stopepoch errs with
  | Completed all =>
      all = errs ∧
      ∀ e, 0 < e ≤ length errs → no_improvement lt stopepoch (take e errs) = false
  | Terminated epoch all =>
      (0 < epoch ≤ Z.of_nat (length errs))%Z ∧
      all = take (Z.to_nat epoch) errs ∧
      no_improvement lt stopepoch all = true ∧
      ∀ e, 0 < e < Z.to_nat epoch → no_improvement lt stopepoch (take e errs) = false
  | Raised _ _ => False
  end.
Proof.
  intros Hk. pose proof (epochs_patience stopepoch [] errs Hk) as Hsp.
  unfold main_loop. cbn [length app] in Hsp. change (Z.of_nat 0 + 1)%Z with 1%Z in Hsp.
  destruct (epochs lt stopepoch 1 [] errs) as [all|epoch all|epoch e]; [done| |done].
  destruct Hsp as (j & Hj & -> & -> & Hst & Hno).
  rewrite Nat.add_0_l, Nat2Z.id. split; [lia|]. done.
Qed.



End script_loop.

Section script_errors.
Context {A : Type} (lt : A → A → bool).

(** With a negative [--stopepoch] the first epoch ends in an
    [IndexError]: [all_err_cls[-args.stopepoch]] is then a lookup at a
    positive index in a list of one element. *)
Theorem main_loop_negative_stopepoch (stopepoch : Z) (errs : list A) :
  (stopepoch < 0)%Z → errs ≠ [] →
  main_loop lt stopepoch errs = Raised 1 ListIndexOutOfRange.
Proof.
  intros Hk Hne. destruct errs as [|err_cls errs]; [done|].
  unfold main_loop. cbn [epochs app]. unfold termination.
  rewrite bool_decide_eq_true_2 by lia. unfold getitem. cbn [length]. cbn zeta.
  rewrite decide_False by lia. by rewrite decide_False by lia.
Qed.

End script_errors.

(** ** Runs on the small instance *)

Module ToyRuns.
Import Toy.


Lemma well_formed_toy : well_formed (H := torch) net_configured adam0 heap_configured.
Proof.
  repeat split.
  - apply (bool_decide_unpack _). vm_compute. exact I.
  - apply (bool_decide_unpack _). vm_compute. exact I.
  - constructor.
  - apply (bool_decide_unpack _). vm_compute. exact I.
Defined.


Lemma check_model_after_configure_witness :
  check_model (H := torch) net_configured heap_configured = Ok (tt, heap_configured) ↔
  (∃ p, p ∈ (collect_params net true).1) ∧
  (∃ p, p ∈ (collect_params net false).1 ∧ p ∉ (collect_params net true).1).
Proof.
  apply (check_model_after_configure (H := torch) net heap0 net_configured
           heap_configured).
  - apply (bool_decide_unpack _). vm_compute. exact I.
  - vm_compute. reflexivity.
Defined.

Lemma reset_restores_snapshot_witness :
  ∃ w h,
    run_calls (H := torch) wrapper0 [Forward (H := torch) 7%Z; Forward (H := torch) 3%Z] heap1 = Ok (w, h) ∧
    ∃ w' h',
      BNM_reset w h = Ok (w', h') ∧
      state_values (model w') h' = state_values net_configured heap_configured ∧
      optimizer_values (optimizer_ w') h' = optimizer_values adam0 heap_configured.
Proof.
  eexists _, _. split; [vm_compute; reflexivity|].
  apply (reset_restores_snapshot (H := torch) net_configured adam0 heap_configured
           2 true wrapper0 heap1 [Forward (H := torch) 7%Z; Forward (H := torch) 3%Z]).
  - exact well_formed_toy.
  - vm_compute. reflexivity.
  - vm_compute. reflexivity.
Defined.


Lemma forward_leaves_no_gradient_witness :
  ∃ r h',
    BNM_forward (H := torch) wrapper0 7%Z heap1 = Ok (r, h') ∧
    ∀ p, p ∈ params adam0 → grad_at h' p = None.
Proof.
  eexists _, _. split; [vm_compute; reflexivity|].
  eapply (forward_leaves_no_gradient (H := torch) net_configured adam0 heap_configured
            2 true wrapper0 heap1 [] wrapper0 heap1 7%Z).
  - vm_compute. reflexivity.
  - vm_compute. reflexivity.
  - vm_compute. reflexivity.
Defined.

Lemma Z_ltb_trans (x y z : Z) : (x <? y)%Z = true → (y <? z)%Z = true → (x <? z)%Z = true.
Proof. rewrite !Z.ltb_lt. lia. Qed.

Lemma Z_ltb_incomparable (x y z : Z) :
  (x <? y)%Z = false → (y <? z)%Z = false → (x <? z)%Z = false.
Proof. rewrite !Z.ltb_ge. lia. Qed.

Lemma main_loop_patience_witness :
  match main_loop Z.ltb 2 [5; 3; 4; 6]%Z with
  | Completed all =>
      all = [5; 3; 4; 6]%Z ∧
      ∀ e, 0 < e ≤ length [5; 3; 4; 6]%Z →
           no_improvement Z.ltb 2 (take e [5; 3; 4; 6]%Z) = false
  | Terminated epoch all =>
      (0 < epoch ≤ Z.of_nat (length [5; 3; 4; 6]%Z))%Z ∧
      all = take (Z.to_nat epoch) [5; 3; 4; 6]%Z ∧
      no_improvement Z.ltb 2 all = true ∧
      ∀ e, 0 < e < Z.to_nat epoch →
           no_improvement Z.ltb 2 (take e [5; 3; 4; 6]%Z) = false
  | Raised _ _ => False
  end.
Proof.
  apply (main_loop_patience Z.ltb Z.ltb_irrefl Z_ltb_trans Z_ltb_incomparable 2
           [5; 3; 4; 6]%Z).
  lia.
Defined.


Lemma main_loop_negative_stopepoch_witness :
  main_loop Z.ltb (-1) [5; 3]%Z = Raised 1 ListIndexOutOfRange.
Proof.
  apply (main_loop_negative_stopepoch Z.ltb (-1) [5; 3]%Z); [lia|done].
Defined.

Lemma frozen_tensors_never_change_witness :
  ∃ w h,
    run_calls (H := torch) wrapper0
      [Forward (H := torch) 7%Z; Reset; Forward (H := torch) 3%Z] heap1 = Ok (w, h) ∧
    h !! 0 = heap_configured !! 0.
Proof.
  eexists _, _. split; [vm_compute; reflexivity|].
  eapply (frozen_tensors_never_change (H := torch) net_configured adam0 heap_configured
           2 true wrapper0 heap1
           [Forward (H := torch) 7%Z; Reset; Forward (H := torch) 3%Z]).
  - exact well_formed_toy.
  - vm_compute. reflexivity.
  - vm_compute. reflexivity.
  - vm_compute. lia.
  - reflexivity.
  - reflexivity.
  - apply (bool_decide_unpack _). vm_compute. exact I.
  - apply (bool_decide_unpack _). vm_compute. exact I.
Defined.

Lemma snapshot_never_written_witness :
  ∃ w h,
    run_calls (H := torch) wrapper0
      [Forward (H := torch) 7%Z; Reset; Forward (H := torch) 3%Z] heap1 = Ok (w, h) ∧
    h !! 6 = heap1 !! 6.
Proof.
  eexists _, _. split; [vm_compute; reflexivity|].
  eapply (snapshot_never_written (H := torch) net_configured adam0 heap_configured
           2 true wrapper0 heap1
           [Forward (H := torch) 7%Z; Reset; Forward (H := torch) 3%Z]).
  - exact well_formed_toy.
  - vm_compute. reflexivity.
  - vm_compute. reflexivity.
  - vm_compute. lia.
Defined.

Lemma setup_bnm_adapts_norm_parameters_only_witness :
  ∃ w0 h1 w h',
    setup_bnm (H := torch) net (Args (H := torch) 1%Z) heap0 = Ok (w0, h1) ∧
    run_calls w0 [Forward (H := torch) 7%Z; Forward (H := torch) 3%Z] h1 = Ok (w, h') ∧
    data_at h' 0 = data_at heap0 0 ∧ requires_grad_at h' 0 = false ∧
    grad_at h' 0 = None.
Proof.
  eexists _, _, _, _. split; [vm_compute; reflexivity|].
  split; [vm_compute; reflexivity|].
  eapply (setup_bnm_adapts_norm_parameters_only (H := torch) net (Args (H := torch) 1%Z)
            heap0 _ _ [Forward (H := torch) 7%Z; Forward (H := torch) 3%Z]).
  - apply (bool_decide_unpack _). vm_compute. exact I.
  - apply (bool_decide_unpack _). vm_compute. exact I.
  - vm_compute. reflexivity.
  - vm_compute. reflexivity.
  - apply (bool_decide_unpack _). vm_compute. exact I.
  - apply (bool_decide_unpack _). vm_compute. exact I.
  - apply (bool_decide_unpack _). vm_compute. exact I.
  - reflexivity.
Defined.

Lemma forward_leaves_eval_mode_witness :
  ∃ out w' h',
    BNM_forward (H := torch) wrapper0 7%Z heap1 = Ok ((out, w'), h') ∧
    (∀ m, m ∈ modules (model w') → training m = false) ∧
    out_grad_fn out = None ∧
    check_model (model w') h' =
      Raise (AssertionError "BNM needs train mode: call model.train()").
Proof.
  eexists _, _, _. split; [vm_compute; reflexivity|].
  apply (forward_leaves_eval_mode (H := torch) wrapper0 7%Z heap1).
  vm_compute. reflexivity.
Defined.

Lemma calls_never_change_flags_witness :
  ∃ w' h',
    run_calls (H := torch) wrapper0 [Forward (H := torch) 7%Z; Reset] heap1
      = Ok (w', h') ∧
    length heap1 ≤ length h' ∧
    (∀ l : nat, l < length heap1 → requires_grad_at h' l = requires_grad_at heap1 l) ∧
    params (optimizer_ w') = params (optimizer_ wrapper0) ∧
    steps w' = steps wrapper0 ∧
    train true (model w') = train true (model wrapper0).
Proof.
  eexists _, _. split; [vm_compute; reflexivity|].
  apply (calls_never_change_flags (H := torch) wrapper0
           [Forward (H := torch) 7%Z; Reset] heap1).
  vm_compute. reflexivity.
Defined.

End ToyRuns.
